(** * Verification of the temporal-attribution core of jira-dev-metrics

    Shallow embedding of [src/report.py] (build_changelog, find_at_time,
    calculate_workload, group_by_lead, map_issues, map_assignees and the
    totals printed by assignee_report), [src/dateutils.py] (strptime,
    datetime_compare), [src/info.py] (analyze_issues) and [src/search.py]
    (build_jql).

    Conventions of the embedding:
    - Python dicts are association lists that keep insertion order;
      assignment to an existing key replaces the value in place, a new
      key is appended at the end (CPython dict semantics).
    - An instant is a [Z]: microseconds since the Unix epoch, in UTC.
      [datetime_compare] returns [timedelta.total_seconds()]; we keep the
      exact count of microseconds; the accumulated sums are exact here,
      while the source adds floats (see [credit]).
    - A raised exception (ValueError from strptime, IndexError, KeyError)
      is [None] in the option monad. *)

From Stdlib Require Import String Ascii ZArith List Lia Bool Sorting.Sorted.
From Stdlib Require Sets.Relations_1.
Import ListNotations.
Open Scope Z_scope.

Notation "x <- c ;; k" := (match c with Some x => k | None => None end)
  (at level 61, c at next level, right associativity).

(** ** Python dicts as ordered association lists *)
Section Dict.
Context {K V : Type} (dec : forall x y : K, {x = y} + {x <> y}).

(** [d.get(k)] *)
Fixpoint dict_get (k : K) (d : list (K * V)) : option V :=
  match d with
  | [] => None
  | (k', v) :: r => if dec k k' then Some v else dict_get k r
  end.

(** [d[k] = v] *)
Fixpoint dict_set (k : K) (v : V) (d : list (K * V)) : list (K * V) :=
  match d with
  | [] => [(k, v)]
  | (k', v') :: r => if dec k k' then (k, v) :: r else (k', v') :: dict_set k v r
  end.

(** [d.setdefault(k, v)] (the returned reference is read back with [dict_get]) *)
Definition setdefault (k : K) (v : V) (d : list (K * V)) : list (K * V) :=
  match dict_get k d with
  | Some _ => d
  | None => d ++ [(k, v)]
  end.
End Dict.

Definition opt_str_dec : forall x y : option string, {x = y} + {x <> y}.
Proof. decide equality; apply string_dec. Defined.

(** ** dateutils.strptime: [datetime.strptime(s, "%Y-%m-%dT%H:%M:%S.%f%z")]

    CPython's [_strptime] turns the format into the regular expression
    [(?P<Y>\d\d\d\d)-(?P<m>1[0-2]|0[1-9]|[1-9])-(?P<d>3[0-1]|[1-2]\d|0[1-9]|[1-9]| [1-9])T]
    [(?P<H>2[0-3]|[0-1]\d|\d):(?P<M>[0-5]\d|\d):(?P<S>6[0-1]|[0-5]\d|\d)\.(?P<f>[0-9]{1,6})]
    [(?P<z>[+-]\d\d:?[0-5]\d(:?[0-5]\d(\.\d{1,6})?)?|(?-i:Z))],
    compiled with IGNORECASE; it takes the first match the backtracking
    engine finds at the start of the string and raises if characters
    remain. The groups are then converted with [int()], the [%z] group as
    in [_strptime] (["Z"], [+HHMM], [+HH:MM], [+HHMMSS[.ffffff]] and so on),
    and [datetime_date], [timezone] and the [datetime] constructor check the
    ranges. Strings are ASCII here. An instant is returned in microseconds
    since the epoch, UTC. *)

Definition digit (c : ascii) : option Z :=
  let n := nat_of_ascii c in
  if (48 <=? n)%nat && (n <=? 57)%nat then Some (Z.of_nat n - 48) else None.

Fixpoint digits_val (acc : Z) (l : list ascii) : option Z :=
  match l with
  | [] => Some acc
  | c :: r => d <- digit c ;; digits_val (acc * 10 + d) r
  end.

Definition is_leap (y : Z) : bool :=
  ((y mod 4 =? 0) && negb (y mod 100 =? 0)) || (y mod 400 =? 0).

Definition days_in_month (y m : Z) : Z :=
  if (m =? 2) then (if is_leap y then 29 else 28)
  else if (m =? 4) || (m =? 6) || (m =? 9) || (m =? 11) then 30 else 31.

(** Days from 1970-01-01 to the proleptic Gregorian date y-m-d. *)
Definition days_from_civil (y m d : Z) : Z :=
  let y := if m <=? 2 then y - 1 else y in
  let era := y / 400 in
  let yoe := y - era * 400 in
  let mp := (m + 9) mod 12 in
  let doy := (153 * mp + 2) / 5 + d - 1 in
  let doe := yoe * 365 + yoe / 4 - yoe / 100 + doy in
  era * 146097 + doe - 719468.

(** A fragment of a regular expression: the ways it matches a prefix of
    the input, in the order the backtracking engine tries them, each given
    as the consumed characters and the remaining input. *)
Definition matcher := list ascii -> list (list ascii * list ascii).

Definition m_char (p : ascii -> bool) : matcher :=
  fun s => match s with c :: r => if p c then [([c], r)] else [] | [] => [] end.

(** [r1 r2] *)
Definition m_seq (m1 m2 : matcher) : matcher :=
  fun s => flat_map (fun p => map (fun q => (fst p ++ fst q, snd q)) (m2 (snd p))) (m1 s).

(** [r1|r2] *)
Definition m_alt (m1 m2 : matcher) : matcher := fun s => m1 s ++ m2 s.

(** [r?], greedy: the match of [r] comes before the empty one *)
Definition m_opt (m : matcher) : matcher := m_alt m (fun s => [([], s)]).

Definition in_range (lo hi c : ascii) : bool :=
  (nat_of_ascii lo <=? nat_of_ascii c)%nat && (nat_of_ascii c <=? nat_of_ascii hi)%nat.

(** [[lo-hi]] and [\d] *)
Definition r_range (lo hi : ascii) : matcher := m_char (in_range lo hi).
Definition r_digit : matcher := r_range "0" "9".

(** a literal character, matched exactly *)
Definition r_lit (c : ascii) : matcher := m_char (fun x => Ascii.eqb x c).

(** a literal letter under IGNORECASE *)
Definition r_lit_i (upper lower : ascii) : matcher :=
  m_char (fun x => Ascii.eqb x upper || Ascii.eqb x lower).

(** [\d{1,n+1}], greedy *)
Fixpoint r_digits_upto (n : nat) : matcher :=
  match n with
  | O => r_digit
  | S k => m_seq r_digit (m_opt (r_digits_upto k))
  end.

(** [(?P<Y>\d\d\d\d)] *)
Definition re_Y : matcher := m_seq r_digit (m_seq r_digit (m_seq r_digit r_digit)).
(** [(?P<m>1[0-2]|0[1-9]|[1-9])] *)
Definition re_m : matcher :=
  m_alt (m_seq (r_lit "1") (r_range "0" "2"))
    (m_alt (m_seq (r_lit "0") (r_range "1" "9")) (r_range "1" "9")).
(** [(?P<d>3[0-1]|[1-2]\d|0[1-9]|[1-9]| [1-9])] *)
Definition re_d : matcher :=
  m_alt (m_seq (r_lit "3") (r_range "0" "1"))
    (m_alt (m_seq (r_range "1" "2") r_digit)
      (m_alt (m_seq (r_lit "0") (r_range "1" "9"))
        (m_alt (r_range "1" "9") (m_seq (r_lit " ") (r_range "1" "9"))))).
(** [(?P<H>2[0-3]|[0-1]\d|\d)] *)
Definition re_H : matcher :=
  m_alt (m_seq (r_lit "2") (r_range "0" "3"))
    (m_alt (m_seq (r_range "0" "1") r_digit) r_digit).
(** [(?P<M>[0-5]\d|\d)] *)
Definition re_M : matcher := m_alt (m_seq (r_range "0" "5") r_digit) r_digit.
(** [(?P<S>6[0-1]|[0-5]\d|\d)] *)
Definition re_S : matcher :=
  m_alt (m_seq (r_lit "6") (r_range "0" "1"))
    (m_alt (m_seq (r_range "0" "5") r_digit) r_digit).
(** [(?P<f>[0-9]{1,6})] *)
Definition re_f : matcher := r_digits_upto 5.
(** [(?P<z>[+-]\d\d:?[0-5]\d(:?[0-5]\d(\.\d{1,6})?)?|(?-i:Z))] *)
Definition re_z : matcher :=
  m_alt
    (m_seq (m_alt (r_lit "+") (r_lit "-"))
      (m_seq r_digit (m_seq r_digit (m_seq (m_opt (r_lit ":"))
        (m_seq (r_range "0" "5") (m_seq r_digit
          (m_opt (m_seq (m_opt (r_lit ":")) (m_seq (r_range "0" "5") (m_seq r_digit
            (m_opt (m_seq (r_lit ".") (r_digits_upto 5)))))))))))))
    (r_lit "Z").

(** The compiled format: literal pieces and named groups, in order. *)
Inductive fmt_part := Lit (m : matcher) | Grp (m : matcher).

Definition strptime_format : list fmt_part :=
  [Grp re_Y; Lit (r_lit "-"); Grp re_m; Lit (r_lit "-"); Grp re_d;
   Lit (r_lit_i "T" "t"); Grp re_H; Lit (r_lit ":"); Grp re_M; Lit (r_lit ":");
   Grp re_S; Lit (r_lit "."); Grp re_f; Grp re_z].

(** [format_regex.match(s)]: all matches in backtracking order, each with the
    captured groups and the unconsumed input. *)
Fixpoint run (ps : list fmt_part) (s : list ascii)
  : list (list (list ascii) * list ascii) :=
  match ps with
  | [] => [([], s)]
  | Lit m :: ps' => flat_map (fun p => run ps' (snd p)) (m s)
  | Grp m :: ps' =>
      flat_map (fun p => map (fun q => (fst p :: fst q, snd q)) (run ps' (snd p))) (m s)
  end.

(** [int(s)] on the strings the groups capture: leading blanks, then digits *)
Fixpoint py_int (l : list ascii) : option Z :=
  match l with
  | [] => None
  | c :: r => if Ascii.eqb c " " then py_int r else digits_val 0 l
  end.

(** [z[:i] + z[i+1:]] *)
Definition drop_at {A} (i : nat) (l : list A) : list A := firstn i l ++ skipn (S i) l.

(** [z[i:j]] *)
Definition slice {A} (i j : nat) (l : list A) : list A := firstn (j - i) (skipn i l).

(** [s + "0" * (6 - len(s))] *)
Definition pad6 (l : list ascii) : list ascii := l ++ repeat "0"%char (6 - length l).

(** The [%z] branch of [_strptime]: [gmtoff] and [gmtoff_fraction] as one
    offset in microseconds (both are negated together). *)
Definition tz_offset (z : list ascii) : option Z :=
  match z with
  | ["Z"%char] => Some 0
  | _ =>
      z <- (c3 <- nth_error z 3 ;;
            if Ascii.eqb c3 ":" then
              let z := drop_at 3 z in
              if (5 <? length z)%nat then
                c5 <- nth_error z 5 ;;
                if Ascii.eqb c5 ":" then Some (drop_at 5 z) else None
              else Some z
            else Some z) ;;
      hours <- py_int (slice 1 3 z) ;;
      minutes <- py_int (slice 3 5 z) ;;
      seconds <- (match slice 5 7 z with [] => Some 0 | l => py_int l end) ;;
      fraction <- py_int (pad6 (skipn 8 z)) ;;
      let off := (hours * 3600 + minutes * 60 + seconds) * 1000000 + fraction in
      match z with
      | "-"%char :: _ => Some (- off)
      | _ => Some off
      end
  end.

Definition strptime (s : string) : option Z :=
  match run strptime_format (list_ascii_of_string s) with
  | [] => None
  | (gs, rest) :: _ =>
      match rest, gs with
      | [], [gY; gm; gd; gH; gM; gS; gf; gz] =>
          y <- py_int gY ;; mo <- py_int gm ;; d <- py_int gd ;;
          h <- py_int gH ;; mi <- py_int gM ;; se <- py_int gS ;;
          f <- py_int (pad6 gf) ;;
          off <- tz_offset gz ;;
          if (1 <=? y) && (1 <=? mo) && (mo <=? 12) && (1 <=? d)
             && (d <=? days_in_month y mo) && (h <=? 23) && (mi <=? 59) && (se <=? 59)
             && (- 86400000000 <? off) && (off <? 86400000000)
          then Some ((days_from_civil y mo d * 86400 + h * 3600 + mi * 60 + se) * 1000000
                     + f - off)
          else None
      | _, _ => None
      end
  end.

Arguments strptime : simpl never.

Example strptime_epoch : strptime "1970-01-01T00:00:00.000+0000" = Some 0.
Proof. vm_compute. reflexivity. Qed.

Example strptime_offset :
  strptime "2023-01-02T14:30:00.5+0100" = Some (1672666200 * 1000000 + 500000).
Proof. vm_compute. reflexivity. Qed.

Example strptime_bad_day : strptime "2023-02-29T00:00:00.000+0000" = None.
Proof. vm_compute. reflexivity. Qed.

Example strptime_year_zero : strptime "0000-01-01T00:00:00.000+0000" = None.
Proof. vm_compute. reflexivity. Qed.

Example strptime_zulu :
  strptime "2023-01-03T10:00:00.000Z" = Some (1672740000 * 1000000).
Proof. vm_compute. reflexivity. Qed.

Example strptime_colon_offset :
  strptime "2023-01-03t10:00:00.000+01:00" = Some (1672736400 * 1000000).
Proof. vm_compute. reflexivity. Qed.

Example strptime_unpadded :
  strptime "2023-1-3T1:2:3.4+0130" = Some (1672702323 * 1000000 + 400000).
Proof. vm_compute. reflexivity. Qed.

Example strptime_offset_seconds :
  strptime "2023-01-03T10:00:00.000+23:59:59.999999" = Some (1672653600 * 1000000 + 1).
Proof. vm_compute. reflexivity. Qed.

Example strptime_leap_second : strptime "2023-01-03T10:00:60.000+0000" = None.
Proof. vm_compute. reflexivity. Qed.

Example strptime_offset_day : strptime "2023-01-03T10:00:00.000+2400" = None.
Proof. vm_compute. reflexivity. Qed.

Example strptime_mixed_colons : strptime "2023-01-03T10:00:00.000+01:0000" = None.
Proof. vm_compute. reflexivity. Qed.

(** dateutils.datetime_compare on two parsed instants: [-(b - a).total_seconds()] *)
Definition datetime_compare_dt (a b : Z) : Z := - (b - a).

(** dateutils.datetime_compare on two strings, each parsed with strptime *)
Definition datetime_compare (a b : string) : option Z :=
  start <- strptime a ;;
  end_ <- strptime b ;;
  Some (datetime_compare_dt start end_).

(** Python indexing [l[i]], negative indices counting from the end. *)
Definition py_index {A} (l : list A) (i : Z) : option A :=
  if i <? 0 then
    let j := Z.of_nat (length l) + i in
    if j <? 0 then None else nth_error l (Z.to_nat j)
  else nth_error l (Z.to_nat i).

(** ** Data model *)

(** A timeline entry: [{"date": ..., "from": ..., "to": ...}] *)
Record transition := { date : string; from : option string; to : option string }.

(** [changelog[issue_id]]: [{"statuses": [...], "assignees": [...]}] *)
Record issue_log := { statuses : list transition; assignees : list transition }.

Definition changelog := list (string * issue_log).

(** Raw response: a change item, a history record and an issue. *)
Record item := {
  item_field : string; item_fieldtype : string;
  item_from : option string; item_to : option string }.

Record history := { created : string; items : list item }.

Record issue := {
  id : string;
  fields_created : string;
  fields_status_id : string;
  fields_assignee : option string;  (** [fields.assignee.accountId], or None *)
  histories : list history }.

(** ** build_changelog *)

(** The change list built by the double loop over histories and items for
    one field ("status" or "assignee", with fieldtype "jira"). *)
Definition changes_of (fld : string) (hs : list history) : list transition :=
  flat_map (fun h =>
    map (fun it => {| date := created h; from := item_from it; to := item_to it |})
      (filter (fun it => String.eqb (item_field it) fld
                         && String.eqb (item_fieldtype it) "jira") (items h))) hs.

(** [{"date": created, "from": None, "to": changes[-1]["from"] if changes else current}] *)
Definition initial_entry (created_at : string) (changes : list transition)
    (current : option string) : transition :=
  {| date := created_at; from := None;
     to := match last (map Some changes) None with
           | Some c => from c
           | None => current
           end |}.

(** [(changes + [initial])[::-1]] *)
Definition timeline_of (created_at : string) (changes : list transition)
    (current : option string) : list transition :=
  rev (changes ++ [initial_entry created_at changes current]).

Definition issue_changelog (iss : issue) : issue_log :=
  {| statuses := timeline_of (fields_created iss) (changes_of "status" (histories iss))
                   (Some (fields_status_id iss));
     assignees := timeline_of (fields_created iss) (changes_of "assignee" (histories iss))
                   (fields_assignee iss) |}.

Fixpoint build_changelog_loop (issues : list issue) (cl : changelog) : changelog :=
  match issues with
  | [] => cl
  | iss :: r => build_changelog_loop r (dict_set string_dec (id iss) (issue_changelog iss) cl)
  end.

Definition build_changelog (issues : list issue) : changelog :=
  build_changelog_loop issues [].

(** ** find_at_time *)

Definition timeline (f : issue_log) (timeline_key : string) : option (list transition) :=
  if string_dec timeline_key "statuses" then Some (statuses f)
  else if string_dec timeline_key "assignees" then Some (assignees f)
  else None.

(** The [for item in items] loop; the result is [previous]. *)
Fixpoint find_loop (items : list transition) (query : string) (inclusive : bool)
    (previous : option transition) : option (option transition) :=
  match items with
  | [] => Some previous
  | item :: r =>
      diff <- datetime_compare (date item) query ;;
      if (diff <? 0) || (inclusive && (diff =? 0))
      then find_loop r query inclusive (Some item)
      else Some previous
  end.

(** [previous or items[0]] *)
Definition find_in (items : list transition) (query : string) (inclusive : bool)
    : option transition :=
  previous <- find_loop items query inclusive None ;;
  match previous with
  | Some p => Some p
  | None => nth_error items 0
  end.

Definition find_at_time (cl : changelog) (query : string) (issue_id : string)
    (timeline_key : string) (inclusive : bool) : option transition :=
  f <- dict_get string_dec issue_id cl ;;
  items <- timeline f timeline_key ;;
  find_in items query inclusive.

(** ** calculate_workload *)

Definition alloc := list (option string * Z).
Definition workload := list (string * alloc).

(** [per_issue.setdefault(issue_id, {}).setdefault(assignee, 0)] followed by
    [per_issue[issue_id][assignee] += x]. The source adds the float seconds
    of [datetime_compare]; here [x] is the exact count of microseconds. The
    two agree when every partial sum is exact in binary64, for instance when
    all spans are whole seconds (the concrete runs below); no statement of
    this file asserts an exact sum of arbitrary spans. *)
Definition credit (per : workload) (issue_id : string) (assignee : option string)
    (x : Z) : workload :=
  let a := match dict_get string_dec issue_id per with Some a => a | None => [] end in
  let v := match dict_get opt_str_dec assignee a with Some v => v | None => 0 end in
  dict_set string_dec issue_id (dict_set opt_str_dec assignee (v + x) a) per.

(** The [while assignee_idx < len(fields["assignees"])] loop for one window;
    [rest] is [fields["assignees"][assignee_idx:]]. Returns the updated
    [per_issue] and [assignee_idx]. *)
Fixpoint sweep (issue_id : string) (rest : list transition) (assignee_idx : nat)
    (start end_ : Z) (per : workload) : option (workload * nat) :=
  match rest with
  | [] => Some (per, assignee_idx)
  | a :: rest' =>
      dt <- strptime (date a) ;;
      let assignee := from a in
      if dt <? start then sweep issue_id rest' (S assignee_idx) start end_ per
      else if dt <? end_ then
        sweep issue_id rest' (S assignee_idx) dt end_
          (credit per issue_id assignee (datetime_compare_dt dt start))
      else Some (credit per issue_id assignee (datetime_compare_dt end_ start), assignee_idx)
  end.

Definition from_is (target_status : option string) (log : transition) : bool :=
  if opt_str_dec (from log) target_status then true else false.

(** [[i for i, log in enumerate(statuses) if log["from"] == target_status]] *)
Definition target_status_idx (sts : list transition) (target_status : option string)
    : list nat :=
  map fst (filter (fun p => from_is target_status (snd p))
             (combine (seq 0 (length sts)) sts)).

(** The [for i in target_status_idx] loop of one issue. *)
Fixpoint windows (issue_id : string) (f : issue_log) (idxs : list nat)
    (assignee_idx : nat) (per : workload) : option workload :=
  match idxs with
  | [] => Some per
  | i :: idxs' =>
      s <- py_index (statuses f) (Z.of_nat i - 1) ;;
      start <- strptime (date s) ;;
      e <- py_index (statuses f) (Z.of_nat i) ;;
      end_ <- strptime (date e) ;;
      r <- sweep issue_id (skipn assignee_idx (assignees f)) assignee_idx start end_ per ;;
      windows issue_id f idxs' (snd r) (fst r)
  end.

Definition issue_workload (issue_id : string) (f : issue_log)
    (target_status : option string) (per : workload) : option workload :=
  windows issue_id f (target_status_idx (statuses f) target_status) 0 per.

Fixpoint calculate_loop (cl : changelog) (target_status : option string)
    (per : workload) : option workload :=
  match cl with
  | [] => Some per
  | (issue_id, f) :: r =>
      per' <- issue_workload issue_id f target_status per ;;
      calculate_loop r target_status per'
  end.

Definition calculate_workload (cl : changelog) (target_status : option string)
    : option workload :=
  calculate_loop cl target_status [].

(** ** group_by_lead *)

(** [max(assignee_scores, key=assignee_scores.get)] on a non-empty dict whose
    first entry is [(k, v)]: the first key with the greatest value. *)
Fixpoint max_from (k : option string) (v : Z) (rest : alloc) : option string :=
  match rest with
  | [] => k
  | (k', v') :: r => if v <? v' then max_from k' v' r else max_from k v r
  end.

Definition lead_group := list (option string * list (string * Z)).

Fixpoint group_loop (w : workload) (per_leads : lead_group) : option lead_group :=
  match w with
  | [] => Some per_leads
  | (issue_id, scores) :: r =>
      match scores with
      | [] => group_loop r per_leads
      | (k, v) :: sr =>
          let lead_assignee := max_from k v sr in
          lead_score <- dict_get opt_str_dec lead_assignee scores ;;
          let per_leads := setdefault opt_str_dec lead_assignee [] per_leads in
          let m := match dict_get opt_str_dec lead_assignee per_leads with
                   | Some m => m | None => [] end in
          group_loop r (dict_set opt_str_dec lead_assignee
                          (dict_set string_dec issue_id lead_score m) per_leads)
      end
  end.

Definition group_by_lead (w : workload) : option lead_group := group_loop w [].

(** The lead and score [group_loop] computes for one issue's allocation. *)
Definition lead_of (scores : alloc) : option (option string * Z) :=
  match scores with
  | [] => None
  | (k, v) :: sr =>
      let lead_assignee := max_from k v sr in
      match dict_get opt_str_dec lead_assignee scores with
      | Some lead_score => Some (lead_assignee, lead_score)
      | None => None
      end
  end.

(** ** Concrete inputs *)

Open Scope string_scope.
Open Scope list_scope.
Open Scope Z_scope.

Definition tr (d : string) (f t : option string) : transition :=
  {| date := d; from := f; to := t |}.

Definition t0 := "2023-01-01T10:00:00.000+0000".
Definition t1 := "2023-01-02T10:00:00.000+0000".
Definition t1h := "2023-01-02T16:00:00.000+0000".
Definition t2 := "2023-01-03T10:00:00.000+0000".

Definition S0 := Some "S0"%string.
Definition TARGET := Some "TARGET"%string.
Definition A := Some "A"%string.
Definition B := Some "B"%string.

(** Scenario A of the spec: a reassignment in the middle of the window. *)
Definition scenario_A : issue_log :=
  {| statuses := [tr t0 None S0; tr t1 S0 TARGET; tr t2 TARGET S0];
     assignees := [tr t0 None A; tr t1h A B] |}.

(** Scenario B of the spec: the issue never leaves the target status. *)
Definition scenario_B : issue_log :=
  {| statuses := [tr t0 None S0; tr t1 S0 TARGET];
     assignees := [tr t0 None A] |}.

(** Scenario A with no reassignment: the window [t1, t2) is held by A alone. *)
Definition single_holder : issue_log :=
  {| statuses := [tr t0 None S0; tr t1 S0 TARGET; tr t2 TARGET S0];
     assignees := [tr t0 None A] |}.

(** An issue whose only status change predates its creation timestamp. *)
Definition status_item (f t : option string) : item :=
  {| item_field := "status"; item_fieldtype := "jira"; item_from := f; item_to := t |}.


(** An issue with one status change. *)
Definition iss_one_change : issue :=
  {| id := "I"; fields_created := t0; fields_status_id := "TARGET"; fields_assignee := A;
     histories := [{| created := t1; items := [status_item S0 TARGET] |}] |}.



(** An issue created unassigned and assigned at the same instant. *)
Definition tie_log : issue_log :=
  {| statuses := [tr t0 None S0];
     assignees := [tr t0 None None; tr t0 None A; tr t1h A B] |}.

(** An issue whose status change carries an unparsable timestamp. *)
Definition iss_malformed : issue :=
  {| id := "I"; fields_created := t0; fields_status_id := "TARGET"; fields_assignee := A;
     histories := [{| created := "not-a-date"; items := [status_item S0 TARGET] |}] |}.

(** A window closed before the assignee timeline's unparsable last entry. *)
Definition malformed_after_window : issue_log :=
  {| statuses := [tr t0 None S0; tr t1 S0 TARGET; tr t1h TARGET S0];
     assignees := [tr t0 None A; tr t2 A B; tr "not-a-date" B A] |}.

(** A status transition after the window, bounding none, with an
    unparsable timestamp. *)
Definition malformed_status_tail : issue_log :=
  {| statuses := [tr t0 None S0; tr t1 S0 TARGET; tr t2 TARGET S0; tr "not-a-date" S0 B];
     assignees := [tr t0 None A; tr t2 A B] |}.

(** The position [statuses[i - 1]] reads for an exit index [i] of a
    timeline of length [n] (Python's index -1 is the last entry). *)
Definition window_start_pos (n i : nat) : nat :=
  match i with O => (n - 1)%nat | S k => k end.

(** A transition with its date string replaced. *)
Definition with_date (t : transition) (d : string) : transition :=
  {| date := d; from := from t; to := to t |}.

(** Null target status: the synthetic entry is taken as an exit. *)
Definition null_target_log : issue_log :=
  {| statuses := [tr t0 None S0; tr t1 S0 TARGET];
     assignees := [tr t0 None A; tr t2 A B] |}.

(** ** Timestamp order and the Timeline invariant *)

Definition parses (s : string) : Prop := exists x, strptime s = Some x.

Definition date_le (a b : string) : Prop :=
  exists x y, strptime a = Some x /\ strptime b = Some y /\ x <= y.

Definition date_lt (a b : string) : Prop :=
  exists x y, strptime a = Some x /\ strptime b = Some y /\ x < y.

Definition tr_le (a b : transition) : Prop := date_le (date a) (date b).

(** Raw histories newest first. *)
Definition hist_ge (h1 h2 : history) : Prop := date_le (created h2) (created h1).

(** Non-empty, every timestamp an instant, non-decreasing, first [from] null. *)
Definition timeline_inv (l : list transition) : Prop :=
  l <> [] /\ Forall (fun t => parses (date t)) l /\ Sorted tr_le l
  /\ (forall t, hd_error l = Some t -> from t = None).

(** [lead_group] holds [{lead: {issue_id: score}}]. *)
Definition lead_entry (R : lead_group) (lead : option string) (issue_id : string)
    (score : Z) : Prop :=
  exists m, In (lead, m) R /\ In (issue_id, score) m.

(** ** Raw issue-tracker response

    The fields of the search response read by [map_issues], [map_assignees]
    and [info.analyze_issues]. *)

Record raw_item := {
  it_field : string; it_fieldtype : string;
  it_from : option string; it_to : option string; it_toString : option string }.

Record raw_history := { rh_created : string; rh_items : list raw_item }.

Record raw_user := { accountId : string; displayName : string }.

Record raw_issue := {
  ri_id : string; ri_key : string; ri_summary : string;
  ri_timeestimate : option Z;
  ri_status_id : string; ri_status_name : string;
  ri_assignee : option raw_user;
  ri_histories : list raw_history }.

(** ** map_issues *)

Record issue_info := {
  info_key : string; info_title : string; info_timeestimate : option Z }.

Definition info_of (iss : raw_issue) : issue_info :=
  {| info_key := ri_key iss; info_title := ri_summary iss;
     info_timeestimate := ri_timeestimate iss |}.

(** [issue_map[id] = new if id not in issue_map else issue_map[id]] *)
Fixpoint map_issues_loop (issues : list raw_issue) (issue_map : list (string * issue_info))
    : list (string * issue_info) :=
  match issues with
  | [] => issue_map
  | iss :: r =>
      map_issues_loop r
        (dict_set string_dec (ri_id iss)
           match dict_get string_dec (ri_id iss) issue_map with
           | None => info_of iss
           | Some e => e
           end issue_map)
  end.

Definition map_issues (issues : list raw_issue) : list (string * issue_info) :=
  map_issues_loop issues [].

(** ** map_assignees *)

Record assignee_entry := { a_name : option string; a_created : string }.

Definition assignee_map := list (string * assignee_entry).

(** The body of the innermost loop for one item of a history created at
    [created]. The two strptime calls run only when the account is already
    in the map ([or] short-circuits); the history date is parsed first. *)
Definition assignee_step (created : string) (it : raw_item) (m : assignee_map)
    : option assignee_map :=
  if String.eqb (it_field it) "assignee" && String.eqb (it_fieldtype it) "jira" then
    match it_to it with
    | None => Some m
    | Some acc =>
        let fresh := {| a_name := it_toString it; a_created := created |} in
        v <- match dict_get string_dec acc m with
             | None => Some fresh
             | Some old =>
                 x <- strptime created ;;
                 y <- strptime (a_created old) ;;
                 Some (if y <? x then fresh else old)
             end ;;
        Some (dict_set string_dec acc v m)
    end
  else Some m.

Fixpoint map_assignees_items (created : string) (items : list raw_item) (m : assignee_map)
    : option assignee_map :=
  match items with
  | [] => Some m
  | it :: r => m' <- assignee_step created it m ;; map_assignees_items created r m'
  end.

Fixpoint map_assignees_histories (hs : list raw_history) (m : assignee_map)
    : option assignee_map :=
  match hs with
  | [] => Some m
  | h :: r =>
      m' <- map_assignees_items (rh_created h) (rh_items h) m ;;
      map_assignees_histories r m'
  end.

Fixpoint map_assignees_loop (issues : list raw_issue) (m : assignee_map)
    : option assignee_map :=
  match issues with
  | [] => Some m
  | iss :: r =>
      m' <- map_assignees_histories (ri_histories iss) m ;;
      map_assignees_loop r m'
  end.

Definition map_assignees (issues : list raw_issue) : option assignee_map :=
  map_assignees_loop issues [].

(** The (history date, item) pairs in the order the three loops visit them. *)
Definition dated_items (issues : list raw_issue) : list (string * raw_item) :=
  flat_map (fun iss =>
    flat_map (fun h => map (fun it => (rh_created h, it)) (rh_items h))
      (ri_histories iss)) issues.

(** An item the map records for account [acc]. *)
Definition assigns_to (it : raw_item) (acc : string) : Prop :=
  it_field it = "assignee" /\ it_fieldtype it = "jira" /\ it_to it = Some acc.

(** ** info.analyze_issues *)

Section Counter.
Context {K : Type} (dec : forall x y : K, {x = y} + {x <> y}).

(** [collections.Counter(iterable)]: [self[elem] = self.get(elem, 0) + 1] *)
Fixpoint counter_loop (l : list K) (c : list (K * nat)) : list (K * nat) :=
  match l with
  | [] => c
  | x :: r =>
      counter_loop r
        (dict_set dec x (match dict_get dec x c with Some n => S n | None => 1%nat end) c)
  end.

Definition Counter (l : list K) : list (K * nat) := counter_loop l [].
End Counter.

Definition pair_dec : forall x y : string * string, {x = y} + {x <> y}.
Proof. decide equality; apply string_dec. Defined.

Record response := { resp_issues : option (list raw_issue); resp_isLast : option bool }.

Record analysis := {
  total_issues : nat; is_last_page : bool;
  status_counts : list ((string * string) * nat);
  assignee_counts : list (string * nat) }.

(** [assignee["displayName"] if assignee else "Unassigned"] *)
Definition assignee_label (iss : raw_issue) : string :=
  match ri_assignee iss with Some u => displayName u | None => "Unassigned" end.

Definition analyze_issues (resp : response) : analysis :=
  let issues := match resp_issues resp with Some l => l | None => [] end in
  {| total_issues := length issues;
     is_last_page := match resp_isLast resp with Some b => b | None => true end;
     status_counts :=
       Counter pair_dec (map (fun iss => (ri_status_id iss, ri_status_name iss)) issues);
     assignee_counts := Counter string_dec (map assignee_label issues) |}.

(** ** search.build_jql *)

(** [str(x)] in an f-string: a missing argument prints as [None]. *)
Definition py_str (o : option string) : string :=
  match o with Some s => s | None => "None" end.

Definition build_jql (issue_keys : option (list string))
    (start_date end_date project : option string) : string :=
  match issue_keys with
  | Some ((_ :: _) as keys) => ("key in (" ++ String.concat "," keys ++ ")")%string
  | _ =>
      ("project = " ++ py_str project ++ " and updated >= " ++ py_str start_date
       ++ " and updated <= " ++ py_str end_date
       ++ " and status not in ('To Do', 'To Be Prepared', 'Ready for Development', 'In Code Review', 'in progress')")%string
  end.

(** No issue key contains a comma. *)
Definition keys_comma_free (keys : list string) : Prop :=
  forall k c, In k keys -> In c (list_ascii_of_string k) -> c <> ","%char.

(** Python's [s.split(",")]: it reads the key list back in the proofs. *)
Fixpoint py_split_comma (s : string) : list string :=
  match s with
  | EmptyString => [""]
  | String c r =>
      let parts := py_split_comma r in
      if Ascii.eqb c "," then "" :: parts
      else match parts with
           | [] => [String c ""]
           | w :: ws => String c w :: ws
           end
  end.

(** ** Auxiliary definitions for the properties of map_assignees *)

(** The three loops of map_assignees as one pass over [dated_items]. *)
Fixpoint assignee_steps (l : list (string * raw_item)) (m : assignee_map)
    : option assignee_map :=
  match l with
  | [] => Some m
  | (d, it) :: r => m' <- assignee_step d it m ;; assignee_steps r m'
  end.

(** After the items [processed]: one entry per account, each entry taken
    from a processed assignment to that account, and dated no earlier than
    every processed assignment to it. *)
Definition am_inv (processed : list (string * raw_item)) (m : assignee_map) : Prop :=
  NoDup (map fst m)
  /\ (forall acc e, In (acc, e) m -> exists it,
        In (a_created e, it) processed /\ assigns_to it acc /\ a_name e = it_toString it)
  /\ (forall d it acc, In (d, it) processed -> assigns_to it acc ->
        exists e, In (acc, e) m /\ date_le d (a_created e)).

(** The sum of the counts of a [Counter]. *)
Definition counts_total {K} (c : list (K * nat)) : nat :=
  fold_right (fun p acc => (snd p + acc)%nat) 0%nat c.

(** ** assignee_report: the hours total of each lead

    The printed text is not modelled; only the numbers it prints. *)

(** [issues.get(issue_id, {}).get("timeestimate", None) or 0] *)
Definition estimate_of (issue_map : list (string * issue_info)) (issue_id : string) : Z :=
  match dict_get string_dec issue_id issue_map with
  | Some i => match info_timeestimate i with Some t => t | None => 0 end
  | None => 0
  end.

(** [total_timeestimate = sum(... for issue_id in issues_scores)] *)
Definition total_timeestimate (issue_map : list (string * issue_info))
    (issues_scores : list (string * Z)) : Z :=
  fold_right (fun p acc => estimate_of issue_map (fst p) + acc) 0 issues_scores.

(** The [(assignee_id, total_timeestimate)] pairs in the order the report
    prints them. *)
Definition assignee_totals (w : workload) (issue_map : list (string * issue_info))
    : option (list (option string * Z)) :=
  groupped <- group_by_lead w ;;
  Some (map (fun p => (fst p, total_timeestimate issue_map (snd p))) groupped).

(** The sum of [g k v] over the entries of an association list. *)
Definition pair_sum {K V} (g : K -> V -> Z) (d : list (K * V)) : Z :=
  fold_right (fun p acc => g (fst p) (snd p) + acc) 0 d.

(** A workload as a dict of dicts: distinct issue ids, and per issue a
    non-empty allocation with distinct assignees. *)
Definition workload_wf (per : workload) : Prop :=
  NoDup (map fst per)
  /\ forall I a, In (I, a) per -> a <> [] /\ NoDup (map fst a).

(** ** Predicates and inputs for the further properties *)



(** Every credited assignee of issue [I] is the [from] of some transition of
    [I]'s assignee timeline in [cl]. *)
Definition credited_from (cl : changelog) (per : workload) : Prop :=
  forall I a who x, In (I, a) per -> In (who, x) a ->
  exists f t, In (I, f) cl /\ In t (assignees f) /\ from t = who.

Definition assignment (acc name : string) : raw_item :=
  {| it_field := "assignee"; it_fieldtype := "jira"; it_from := None;
     it_to := Some acc; it_toString := Some name |}.

(** Account u1 assigned three times, the latest on t2. *)
Definition two_assignments : list raw_issue :=
  [{| ri_id := "1"; ri_key := "K-1"; ri_summary := "s"; ri_timeestimate := None;
      ri_status_id := "3"; ri_status_name := "Done"; ri_assignee := None;
      ri_histories := [{| rh_created := t1; rh_items := [assignment "u1" "Old name"] |}] |};
   {| ri_id := "2"; ri_key := "K-2"; ri_summary := "s"; ri_timeestimate := None;
      ri_status_id := "3"; ri_status_name := "Done"; ri_assignee := None;
      ri_histories := [{| rh_created := t2; rh_items := [assignment "u1" "New name"] |};
                       {| rh_created := t0; rh_items := [assignment "u1" "Oldest"] |}] |}].

Definition demo_issue_map : list (string * issue_info) :=
  [("I1", {| info_key := "K-1"; info_title := "one"; info_timeestimate := Some 3600 |});
   ("I2", {| info_key := "K-2"; info_title := "two"; info_timeestimate := Some 7200 |});
   ("I3", {| info_key := "K-3"; info_title := "three"; info_timeestimate := None |})].

(** ** Association-list lemmas *)
Section DictFacts.
Context {K V : Type} (dec : forall x y : K, {x = y} + {x <> y}).

Lemma dict_get_In k v (d : list (K * V)) : dict_get dec k d = Some v -> In (k, v) d.
Proof.
  induction d as [|[k' v'] r IH]; simpl; [discriminate|].
  destruct (dec k k'); [intros [= <-]; subst; auto | auto].
Qed.

Lemma dict_get_None k (d : list (K * V)) :
  dict_get dec k d = None <-> ~ In k (map fst d).
Proof.
  induction d as [|[k' v'] r IH]; simpl; [tauto|].
  destruct (dec k k'); [subst; split; [discriminate|tauto]|].
  rewrite IH. intuition.
Qed.

Lemma dict_get_Some k (d : list (K * V)) :
  In k (map fst d) -> exists v, dict_get dec k d = Some v.
Proof.
  intros H. destruct (dict_get dec k d) eqn:E; [eauto|].
  apply dict_get_None in E. contradiction.
Qed.

Lemma dict_set_In k v (d : list (K * V)) p :
  In p (dict_set dec k v d) -> p = (k, v) \/ In p d.
Proof.
  induction d as [|[k' v'] r IH]; simpl; [intuition|].
  destruct (dec k k'); simpl; intuition.
Qed.

Lemma dict_set_In_new k v (d : list (K * V)) : In (k, v) (dict_set dec k v d).
Proof.
  induction d as [|[k' v'] r IH]; simpl; [auto|].
  destruct (dec k k'); simpl; auto.
Qed.

Lemma dict_set_keep k m m' (d : list (K * V)) k' x :
  dict_get dec k d = Some m -> In (k', x) d ->
  In (k', x) (dict_set dec k m' d) \/ (k' = k /\ x = m).
Proof.
  induction d as [|[k0 v0] r IH]; simpl; [contradiction|].
  destruct (dec k k0) as [->|Hne].
  - intros [= ->] [[= -> ->]|Hin]; simpl; auto.
  - intros Hg [Heq|Hin]; simpl; [auto|].
    destruct (IH Hg Hin); auto.
Qed.

Lemma dict_set_keys k v (d : list (K * V)) k' :
  In k' (map fst (dict_set dec k v d)) -> k' = k \/ In k' (map fst d).
Proof.
  intros H. apply in_map_iff in H as [[k1 v1] [<- Hin]].
  apply dict_set_In in Hin as [[= -> ->]|Hin]; [auto|].
  right. apply in_map_iff. exists (k1, v1). auto.
Qed.

Lemma setdefault_In k v (d : list (K * V)) p :
  In p (setdefault dec k v d) -> In p d \/ p = (k, v).
Proof.
  unfold setdefault. destruct (dict_get dec k d); [auto|].
  rewrite in_app_iff. simpl. intuition.
Qed.

Lemma setdefault_keep k v (d : list (K * V)) p :
  In p d -> In p (setdefault dec k v d).
Proof.
  unfold setdefault. destruct (dict_get dec k d); [auto|].
  intros; apply in_or_app; auto.
Qed.

Lemma setdefault_get k v (d : list (K * V)) :
  exists m, dict_get dec k (setdefault dec k v d) = Some m.
Proof.
  apply dict_get_Some. unfold setdefault.
  destruct (dict_get dec k d) eqn:E.
  - apply dict_get_In in E. apply in_map_iff. exists (k, v0). auto.
  - rewrite map_app. apply in_or_app. simpl. auto.
Qed.

Lemma NoDup_In_same (d : list (K * V)) k v v' :
  NoDup (map fst d) -> In (k, v) d -> In (k, v') d -> v = v'.
Proof.
  induction d as [|[k0 v0] r IH]; simpl; [contradiction|].
  intros Hnd. inversion Hnd as [|? ? Hnotin Hnd']; subst.
  intros [Heq1|H1] [Heq2|H2].
  - congruence.
  - injection Heq1 as <- <-. exfalso. apply Hnotin.
    apply in_map_iff. exists (k0, v'). auto.
  - injection Heq2 as <- <-. exfalso. apply Hnotin.
    apply in_map_iff. exists (k0, v). auto.
  - eauto.
Qed.
End DictFacts.

(** ** Deciding the order of concrete timestamps *)

Definition cmp_le (a b : string) : bool :=
  match strptime a, strptime b with Some x, Some y => Z.leb x y | _, _ => false end.

Lemma date_le_of_cmp a b : cmp_le a b = true -> date_le a b.
Proof.
  unfold cmp_le, date_le.
  destruct (strptime a), (strptime b); try discriminate.
  intros H%Z.leb_le. eauto.
Qed.

Lemma parses_of_cmp s : match strptime s with Some _ => true | None => false end = true ->
  parses s.
Proof. unfold parses. destruct (strptime s); [eauto|discriminate]. Qed.

Ltac concrete_order :=
  repeat match goal with
  | |- tr_le _ _ => apply date_le_of_cmp; vm_compute; reflexivity
  | |- hist_ge _ _ => apply date_le_of_cmp; vm_compute; reflexivity
  | |- date_le _ _ => apply date_le_of_cmp; vm_compute; reflexivity
  | |- parses _ => apply parses_of_cmp; vm_compute; reflexivity
  | |- Sorted _ _ => constructor
  | |- HdRel _ _ _ => constructor
  | |- Forall _ _ => constructor
  end.


(** ** Concrete runs of calculate_workload *)

(** C1 (failing input): a closed window [t1, t2) of 86400 s held by A, with no
    assignee transition at or after its start: nothing is attributed to it. *)
Theorem window_tail_unallocated :
  datetime_compare t2 t1 = Some 86400000000
  /\ calculate_workload [("I", single_holder)] TARGET = Some [].
Proof. split; vm_compute; reflexivity. Qed.

(** C2 (failing input): Scenario A credits A with t1h - t1 (21600 s) and
    never credits B with t2 - t1h (64800 s). *)
Theorem scenario_A_allocation :
  calculate_workload [("I", scenario_A)] TARGET = Some [("I", [(A, 21600000000)])].
Proof. vm_compute. reflexivity. Qed.

(** C10: with a null target status the synthetic first entry (index 0) is an
    exit, the window start is read at index -1, i.e. from the last status
    transition, and the window [t1, t0) credits A with t0 - t1 = -86400 s. *)
Theorem null_target_negative :
  target_status_idx (statuses null_target_log) None = [0%nat]
  /\ py_index (statuses null_target_log) (Z.of_nat 0 - 1) = Some (tr t1 S0 TARGET)
  /\ calculate_workload [("I", null_target_log)] None
     = Some [("I", [(A, -86400000000)])]
  /\ -86400000000 < 0.
Proof. repeat split; vm_compute; reflexivity. Qed.

(** ** Concrete runs of build_changelog and find_at_time *)


(** C5 (counterexample): with one status change the synthetic entry comes
    first in the output, not last as [reverse(synthetic :: changes)] has it. *)
Lemma synthetic_not_last :
  exists f, build_changelog [iss_one_change] = [("I", f)]
  /\ statuses f = [tr t0 None S0; tr t1 S0 TARGET]
  /\ rev (initial_entry t0 (changes_of "status" (histories iss_one_change))
            (Some "TARGET") :: changes_of "status" (histories iss_one_change))
     = [tr t1 S0 TARGET; tr t0 None S0]
  /\ statuses f <> [tr t1 S0 TARGET; tr t0 None S0].
Proof.
  eexists. split; [vm_compute; reflexivity|].
  split; [reflexivity|]. split; [vm_compute; reflexivity|].
  discriminate.
Qed.

(** C6 (counterexample): in a timeline satisfying the invariant, the lookup
    at the date of the first entry returns the second, which has the same
    date. *)
Lemma lookup_tie_returns_later :
  timeline_inv (assignees tie_log)
  /\ In (tr t0 None None) (assignees tie_log)
  /\ find_at_time [("I", tie_log)] t0 "I" "assignees" true = Some (tr t0 None A)
  /\ tr t0 None A <> tr t0 None None.
Proof.
  split.
  - split; [discriminate|]. split; [concrete_order|]. split; [concrete_order|].
    intros t [= <-]. reflexivity.
  - split; [simpl; auto|]. split; [vm_compute; reflexivity|]. discriminate.
Qed.

(** C9 (counterexample): an unparsable history timestamp on a status change
    that bounds no target window is never parsed, and a result is returned. *)
Lemma malformed_status_date_undetected :
  strptime "not-a-date" = None
  /\ In "not-a-date" (map created (histories iss_malformed))
  /\ calculate_workload (build_changelog [iss_malformed]) TARGET = Some [].
Proof. split; [vm_compute; reflexivity|]. split; [simpl; auto|]. vm_compute; reflexivity. Qed.

(** ** Structure of calculate_workload *)

Lemma calculate_loop_app cl1 cl2 target per :
  calculate_loop (cl1 ++ cl2) target per
  = match calculate_loop cl1 target per with
    | Some p => calculate_loop cl2 target p
    | None => None
    end.
Proof.
  revert per. induction cl1 as [|[k f] r IH]; intros per; simpl; [reflexivity|].
  destruct (issue_workload k f target per); [apply IH | reflexivity].
Qed.

Lemma in_combine_seq {T} (l : list T) k i x :
  In (i, x) (combine (seq k (length l)) l) -> (k <= i)%nat /\ nth_error l (i - k) = Some x.
Proof.
  revert k. induction l as [|y r IH]; intros k; simpl; [contradiction|].
  intros [[= -> ->]|H].
  - rewrite Nat.sub_diag. auto.
  - apply IH in H as [Hle Hn]. split; [lia|].
    replace (i - k)%nat with (S (i - S k)) by lia. exact Hn.
Qed.

Lemma nth_in_combine_seq {T} (l : list T) k i x :
  nth_error l i = Some x -> In (k + i, x)%nat (combine (seq k (length l)) l).
Proof.
  revert k i. induction l as [|y r IH]; intros k i; simpl.
  - destruct i; discriminate.
  - destruct i as [|i]; simpl.
    + intros [= ->]. left. f_equal. lia.
    + intros H. right. replace (k + S i)%nat with (S k + i)%nat by lia. auto.
Qed.

Lemma target_status_idx_spec sts target i :
  In i (target_status_idx sts target)
  <-> exists log, nth_error sts i = Some log /\ from log = target.
Proof.
  unfold target_status_idx. rewrite in_map_iff. split.
  - intros [[i' log] [<- Hin]]. apply filter_In in Hin as [Hin Hf].
    apply in_combine_seq in Hin as [_ Hn]. rewrite Nat.sub_0_r in Hn.
    exists log. split; [exact Hn|]. unfold from_is in Hf. simpl in Hf.
    destruct (opt_str_dec (from log) target); [assumption|discriminate].
  - intros [log [Hn Hf]]. exists (i, log). split; [reflexivity|].
    apply filter_In. split; [apply (nth_in_combine_seq sts 0 i log Hn)|].
    unfold from_is. simpl. destruct (opt_str_dec (from log) target); congruence.
Qed.

Lemma target_status_idx_nil sts target :
  (forall t, In t sts -> from t <> target) -> target_status_idx sts target = [].
Proof.
  intros H. destruct (target_status_idx sts target) as [|i r] eqn:E; [reflexivity|].
  assert (Hi : In i (target_status_idx sts target)) by (rewrite E; left; reflexivity).
  apply target_status_idx_spec in Hi as [log [Hn Hf]].
  exfalso. apply (H log); [eapply nth_error_In; eauto | assumption].
Qed.

Lemma credit_keys per issue_id who x k :
  In k (map fst (credit per issue_id who x)) -> k = issue_id \/ In k (map fst per).
Proof. unfold credit. apply dict_set_keys. Qed.

Lemma sweep_keys issue_id rest idx start end_ per per' idx' :
  sweep issue_id rest idx start end_ per = Some (per', idx') ->
  forall k, In k (map fst per') -> k = issue_id \/ In k (map fst per).
Proof.
  revert idx start per. induction rest as [|a r IH]; intros idx start per; simpl.
  - intros [= <- _]. auto.
  - destruct (strptime (date a)) as [dt|]; [|discriminate].
    destruct (dt <? start).
    + apply IH.
    + destruct (dt <? end_).
      * intros H k Hk. destruct (IH _ _ _ H k Hk) as [|Hk']; [auto|].
        apply credit_keys in Hk'. tauto.
      * intros [= <- _] k Hk. apply credit_keys in Hk. tauto.
Qed.

Lemma windows_keys issue_id f idxs idx per per' :
  windows issue_id f idxs idx per = Some per' ->
  forall k, In k (map fst per') -> k = issue_id \/ In k (map fst per).
Proof.
  revert idx per. induction idxs as [|i r IH]; intros idx per; simpl.
  - intros [= <-]. auto.
  - destruct (py_index (statuses f) (Z.of_nat i - 1)) as [s|]; [|discriminate].
    destruct (strptime (date s)) as [start|]; [|discriminate].
    destruct (py_index (statuses f) (Z.of_nat i)) as [e|]; [|discriminate].
    destruct (strptime (date e)) as [end_|]; [|discriminate].
    destruct (sweep issue_id (skipn idx (assignees f)) idx start end_ per)
      as [[p j]|] eqn:Hs; [|discriminate].
    simpl. intros H k Hk. destruct (IH _ _ H k Hk) as [|Hk']; [auto|].
    eapply sweep_keys; eauto.
Qed.

Lemma calculate_loop_keys cl target per r :
  calculate_loop cl target per = Some r ->
  forall k, In k (map fst r) -> In k (map fst per) \/ In k (map fst cl).
Proof.
  revert per. induction cl as [|[i f] rest IH]; intros per; simpl.
  - intros [= <-]. auto.
  - unfold issue_workload.
    destruct (windows i f (target_status_idx (statuses f) target) 0 per) as [p|] eqn:Hw;
      [|discriminate].
    intros H k Hk. destruct (IH _ H k Hk) as [Hk'|]; [|tauto].
    destruct (windows_keys _ _ _ _ _ _ Hw k Hk') as [->|]; simpl; tauto.
Qed.

(** C3: an issue whose status timeline never leaves the target status is a
    no-op of calculate_workload: removing it changes nothing, alone it yields
    the empty mapping, and (its id being unique, as in a dict) the result has
    no entry for it. Scenario B yields [{}]. *)
Theorem no_exit_no_entry pre post issue_id f target :
  (forall t, In t (statuses f) -> from t <> target) ->
  calculate_workload (pre ++ (issue_id, f) :: post) target
    = calculate_workload (pre ++ post) target
  /\ calculate_workload [(issue_id, f)] target = Some []
  /\ (~ In issue_id (map fst (pre ++ post)) ->
      forall r, calculate_workload (pre ++ (issue_id, f) :: post) target = Some r ->
      dict_get string_dec issue_id r = None)
  /\ calculate_workload [("I", scenario_B)] TARGET = Some [].
Proof.
  intros Hno.
  assert (Hstep : forall per, issue_workload issue_id f target per = Some per).
  { intros per. unfold issue_workload. rewrite target_status_idx_nil; auto. }
  assert (Heq : calculate_workload (pre ++ (issue_id, f) :: post) target
                = calculate_workload (pre ++ post) target).
  { unfold calculate_workload. rewrite !calculate_loop_app.
    destruct (calculate_loop pre target []) as [p|]; [|reflexivity].
    simpl. rewrite Hstep. reflexivity. }
  split; [exact Heq|]. split.
  { unfold calculate_workload. simpl. rewrite Hstep. reflexivity. }
  split; [|vm_compute; reflexivity].
  intros Hnotin r Hr. rewrite Heq in Hr. apply dict_get_None. intros Hk.
  destruct (calculate_loop_keys _ _ _ _ Hr _ Hk) as [[]|]. contradiction.
Qed.

Lemma no_exit_no_entry_witness :
  (forall t, In t (statuses scenario_B) -> from t <> TARGET)
  /\ calculate_workload ([] ++ ("I", scenario_B) :: []) TARGET
     = calculate_workload ([] ++ []) TARGET.
Proof.
  assert (H : forall t, In t (statuses scenario_B) -> from t <> TARGET).
  { simpl. intros t [<-|[<-|[]]]; discriminate. }
  split; [exact H|].
  exact (proj1 (no_exit_no_entry [] [] "I" scenario_B TARGET H)).
Defined.

(** ** Non-negativity of the allocation *)

Definition all_nonneg (per : workload) : Prop :=
  forall k a, In (k, a) per -> forall who v, In (who, v) a -> 0 <= v.

Lemma credit_nonneg per issue_id who x :
  all_nonneg per -> 0 <= x -> all_nonneg (credit per issue_id who x).
Proof.
  unfold credit. intros Hnn Hx k a Hin w v Hv.
  destruct (dict_get string_dec issue_id per) as [a0|] eqn:Ea0.
  - apply dict_set_In in Hin as [[= -> ->]|Hin]; [|exact (Hnn _ _ Hin _ _ Hv)].
    apply dict_set_In in Hv as [[= -> ->]|Hv].
    + destruct (dict_get opt_str_dec who a0) as [v0|] eqn:Ev0; [|lia].
      apply dict_get_In in Ea0, Ev0. pose proof (Hnn _ _ Ea0 _ _ Ev0). lia.
    + apply dict_get_In in Ea0. exact (Hnn _ _ Ea0 _ _ Hv).
  - apply dict_set_In in Hin as [[= -> ->]|Hin]; [|exact (Hnn _ _ Hin _ _ Hv)].
    simpl in Hv. destruct Hv as [[= -> ->]|[]]. lia.
Qed.

Lemma sweep_nonneg issue_id rest idx start end_ per per' idx' :
  start <= end_ -> all_nonneg per ->
  sweep issue_id rest idx start end_ per = Some (per', idx') -> all_nonneg per'.
Proof.
  revert idx start per. induction rest as [|a r IH]; intros idx start per Hse Hnn; simpl.
  - intros [= <- _]. exact Hnn.
  - destruct (strptime (date a)) as [dt|]; [|discriminate].
    destruct (dt <? start) eqn:Hlt; [exact (IH _ _ _ Hse Hnn)|].
    apply Z.ltb_ge in Hlt.
    destruct (dt <? end_) eqn:Hlt2.
    + apply Z.ltb_lt in Hlt2. apply IH; [lia|].
      apply credit_nonneg; [exact Hnn|]. unfold datetime_compare_dt. lia.
    + intros [= <- _]. apply credit_nonneg; [exact Hnn|]. unfold datetime_compare_dt. lia.
Qed.

Lemma Sorted_nth_succ {T} (R : T -> T -> Prop) l i a b :
  Sorted R l -> nth_error l i = Some a -> nth_error l (S i) = Some b -> R a b.
Proof.
  revert i. induction l as [|x r IH]; intros i Hs; [destruct i; discriminate|].
  inversion Hs as [|? ? Hr Hhd]; subst.
  destruct i as [|i]; simpl.
  - intros [= ->]. destruct r as [|y r']; [discriminate|]. simpl.
    intros [= ->]. inversion Hhd; assumption.
  - apply IH. exact Hr.
Qed.

Lemma py_index_nonneg {T} (l : list T) (z : Z) :
  0 <= z -> py_index l z = nth_error l (Z.to_nat z).
Proof. unfold py_index. intros H. destruct (z <? 0) eqn:E; [lia|reflexivity]. Qed.

Lemma windows_nonneg issue_id f idxs idx per per' :
  Sorted tr_le (statuses f) -> (forall i, In i idxs -> (1 <= i)%nat) ->
  all_nonneg per -> windows issue_id f idxs idx per = Some per' -> all_nonneg per'.
Proof.
  intros Hs. revert idx per. induction idxs as [|i r IH]; intros idx per Hidx Hnn; simpl.
  - intros [= <-]. exact Hnn.
  - assert (Hi : (1 <= i)%nat) by (apply Hidx; left; reflexivity).
    rewrite !py_index_nonneg by lia.
    replace (Z.to_nat (Z.of_nat i - 1)) with (i - 1)%nat by lia.
    rewrite Nat2Z.id.
    destruct (nth_error (statuses f) (i - 1)) as [s|] eqn:Es; [|discriminate].
    destruct (strptime (date s)) as [start|] eqn:Hst; [|discriminate].
    destruct (nth_error (statuses f) i) as [e|] eqn:Ee; [|discriminate].
    destruct (strptime (date e)) as [end_|] eqn:Hen; [|discriminate].
    assert (Hle : start <= end_).
    { replace i with (S (i - 1)) in Ee by lia.
      destruct (Sorted_nth_succ _ _ _ _ _ Hs Es Ee) as (x & y & Hx & Hy & Hxy).
      congruence. }
    destruct (sweep issue_id (skipn idx (assignees f)) idx start end_ per)
      as [[p j]|] eqn:Hsw; [|discriminate].
    simpl. apply IH; [intros; apply Hidx; right; assumption|].
    exact (sweep_nonneg _ _ _ _ _ _ _ _ Hle Hnn Hsw).
Qed.

(** C7: when every issue's status timeline satisfies the Timeline invariant
    and the target status is not null, every allocated duration is
    non-negative. (Only the status timeline's order and its null first
    [from] are used; the assignee timeline is unconstrained.) *)
Theorem workload_nonneg cl target r :
  target <> None ->
  (forall k f, In (k, f) cl -> timeline_inv (statuses f)) ->
  calculate_workload cl target = Some r ->
  forall k a, In (k, a) r -> forall who v, In (who, v) a -> 0 <= v.
Proof.
  intros Ht Hinv. unfold calculate_workload.
  assert (H0 : all_nonneg []) by (intros ? ? []).
  revert H0. generalize (@nil (string * alloc)) as per.
  induction cl as [|[i f] rest IH]; intros per Hnn; simpl.
  - intros [= <-]. exact Hnn.
  - unfold issue_workload.
    destruct (windows i f (target_status_idx (statuses f) target) 0 per) as [p|] eqn:Hw;
      [|discriminate].
    apply IH; [intros; eapply Hinv; right; eassumption|].
    destruct (Hinv i f (or_introl eq_refl)) as (_ & _ & Hs & Hhd).
    refine (windows_nonneg _ _ _ _ _ _ Hs _ Hnn Hw).
    intros j Hj. apply target_status_idx_spec in Hj as [log [Hn Hf]].
    destruct j as [|j]; [|lia].
    exfalso. apply Ht. rewrite <- Hf. apply Hhd. destruct (statuses f); [discriminate|].
    exact Hn.
Qed.

Lemma workload_nonneg_witness :
  TARGET <> None /\ (forall k f, In (k, f) [("I", scenario_A)] -> timeline_inv (statuses f))
  /\ (forall k a, In (k, a) [("I", [(A, 21600000000)])] ->
      forall who v, In (who, v) a -> 0 <= v).
Proof.
  assert (Ht : TARGET <> None) by discriminate.
  assert (Hi : forall k f, In (k, f) [("I", scenario_A)] -> timeline_inv (statuses f)).
  { intros k f [[= <- <-]|[]].
    split; [discriminate|]. split; [concrete_order|]. split; [concrete_order|].
    intros t [= <-]. reflexivity. }
  split; [exact Ht|]. split; [exact Hi|].
  apply (workload_nonneg [("I", scenario_A)] TARGET _ Ht Hi).
  vm_compute. reflexivity.
Defined.

(** ** Point-in-time lookup *)

Lemma date_le_trans : Relations_1.Transitive date_le.
Proof.
  intros a b c (x & y & Ha & Hb & Hxy) (y' & z & Hb' & Hc & Hyz).
  exists x, z. rewrite Hb in Hb'. injection Hb' as <-. repeat split; auto; lia.
Qed.

Lemma tr_le_trans : Relations_1.Transitive tr_le.
Proof. intros a b c. apply date_le_trans. Qed.

Lemma StronglySorted_app_cross {T} (R : T -> T -> Prop) l1 l2 :
  StronglySorted R (l1 ++ l2) -> forall x y, In x l1 -> In y l2 -> R x y.
Proof.
  induction l1 as [|a r IH]; simpl; [contradiction|].
  intros Hs. inversion Hs as [|? ? Hr Hf]; subst.
  intros x y [<-|Hx] Hy; [|exact (IH Hr x y Hx Hy)].
  rewrite Forall_forall in Hf. apply Hf, in_or_app. auto.
Qed.

Lemma find_loop_skip pre rest q z prev :
  strptime q = Some z ->
  (forall u, In u pre -> exists x, strptime (date u) = Some x /\ x <= z) ->
  exists prev', find_loop (pre ++ rest) q true prev = find_loop rest q true prev'.
Proof.
  intros Hq. revert prev. induction pre as [|u r IH]; intros prev Hpre; simpl; [eauto|].
  destruct (Hpre u (or_introl eq_refl)) as (x & Hx & Hxz).
  unfold datetime_compare, datetime_compare_dt. rewrite Hx, Hq.
  replace ((- (z - x) <? 0) || (- (z - x) =? 0)) with true.
  - apply IH. intros; apply Hpre; right; assumption.
  - symmetry. destruct (Z.ltb_spec (- (z - x)) 0); [reflexivity|].
    simpl. apply Z.eqb_eq. lia.
Qed.

(** C6 (amended): in a timeline whose timestamps are instants in
    non-decreasing order, a lookup (inclusive) at the instant of a
    transition [t] returns [t] when every later transition is strictly later,
    i.e. when [t] is the last transition at its instant; when transitions tie,
    the last of them is returned. A query before every transition returns the
    first transition. *)
Theorem find_at_time_last_at_instant cl issue_id key f l :
  dict_get string_dec issue_id cl = Some f -> timeline f key = Some l ->
  l <> [] -> Forall (fun t => parses (date t)) l -> Sorted tr_le l ->
  (forall pre t post q, l = pre ++ t :: post ->
     strptime q = strptime (date t) ->
     (forall u, In u post -> date_lt (date t) (date u)) ->
     find_at_time cl q issue_id key true = Some t)
  /\ (forall query z inclusive, strptime query = Some z ->
     (forall u, In u l -> exists x, strptime (date u) = Some x /\ z < x) ->
     find_at_time cl query issue_id key inclusive = nth_error l 0).
Proof.
  intros Hf Hl Hne Hparse Hs.
  unfold find_at_time. rewrite Hf. simpl. rewrite Hl. simpl.
  split.
  - intros pre t post q -> Hq Hpost.
    assert (Ht : In t (pre ++ t :: post)) by (apply in_or_app; right; left; reflexivity).
    rewrite Forall_forall in Hparse. destruct (Hparse t Ht) as [z Hz].
    rewrite Hz in Hq.
    apply Sorted_StronglySorted in Hs; [|exact tr_le_trans].
    destruct (find_loop_skip pre (t :: post) q z None Hq) as [prev' Hskip].
    { intros u Hu. destruct (StronglySorted_app_cross _ _ _ Hs u t Hu (or_introl eq_refl))
        as (x & y & Hx & Hy & Hxy).
      exists x. split; [exact Hx|]. congruence. }
    unfold find_in. rewrite Hskip. simpl.
    unfold datetime_compare, datetime_compare_dt. rewrite Hz, Hq.
    replace (z - z) with 0 by lia. simpl.
    destruct post as [|u post']; simpl; [reflexivity|].
    destruct (Hpost u (or_introl eq_refl)) as (x & y & Hx & Hy & Hxy).
    unfold datetime_compare, datetime_compare_dt. rewrite Hy, Hq. rewrite Hx in Hz. injection Hz as ->.
    replace (- (z - y) <? 0) with false by (symmetry; apply Z.ltb_ge; lia).
    replace (- (z - y) =? 0) with false by (symmetry; apply Z.eqb_neq; lia).
    reflexivity.
  - intros query z inclusive Hq Hall. unfold find_in.
    destruct l as [|u r]; [contradiction|]. simpl.
    destruct (Hall u (or_introl eq_refl)) as (x & Hx & Hzx).
    unfold datetime_compare, datetime_compare_dt. rewrite Hx, Hq.
    replace (- (z - x) <? 0) with false by (symmetry; apply Z.ltb_ge; lia).
    replace (- (z - x) =? 0) with false by (symmetry; apply Z.eqb_neq; lia).
    destruct inclusive; reflexivity.
Qed.

Lemma find_at_time_last_at_instant_witness :
  find_at_time [("I", tie_log)] t0 "I" "assignees" true = Some (tr t0 None A)
  /\ find_at_time [("I", tie_log)] "2022-12-31T00:00:00.000+0000" "I" "assignees" false
     = Some (tr t0 None None).
Proof.
  assert (Hinv : timeline_inv (assignees tie_log)) by (apply lookup_tie_returns_later).
  destruct Hinv as (Hne & Hp & Hs & _).
  destruct (find_at_time_last_at_instant [("I", tie_log)] "I" "assignees" tie_log
              (assignees tie_log) eq_refl eq_refl Hne Hp Hs) as [H1 H2].
  split.
  - apply (H1 [tr t0 None None] (tr t0 None A) [tr t1h A B] t0 eq_refl eq_refl).
    intros u [<-|[]]. exists 1672567200000000, 1672675200000000.
    split; [vm_compute; reflexivity|]. split; [vm_compute; reflexivity|]. lia.
  - apply (H2 _ 1672444800000000); [vm_compute; reflexivity|].
    intros u Hu. exists (match strptime (date u) with Some x => x | None => 0 end).
    simpl in Hu. destruct Hu as [<-|[<-|[<-|[]]]]; vm_compute; split; reflexivity.
Defined.

(** ** Timelines built by build_changelog *)

Lemma build_changelog_loop_In issues cl k f :
  In (k, f) (build_changelog_loop issues cl) ->
  In (k, f) cl \/ exists iss, In iss issues /\ k = id iss /\ f = issue_changelog iss.
Proof.
  revert cl. induction issues as [|iss r IH]; intros cl; simpl; [auto|].
  intros H. destruct (IH _ H) as [Hin|(i & Hi & -> & ->)]; [|eauto 6].
  apply dict_set_In in Hin as [[= -> ->]|Hin]; eauto 6.
Qed.

Lemma build_changelog_In issues k f :
  In (k, f) (build_changelog issues) ->
  exists iss, In iss issues /\ k = id iss /\ f = issue_changelog iss.
Proof.
  intros H. destruct (build_changelog_loop_In issues [] k f H) as [[]|]; assumption.
Qed.

Lemma timeline_of_shape created_at changes current :
  timeline_of created_at changes current
  = initial_entry created_at changes current :: rev changes.
Proof. unfold timeline_of. rewrite rev_app_distr. reflexivity. Qed.











(** C5 (amended): each timeline is [reverse(filteredEvents ++ [synthetic])]:
    the synthetic entry [{date: created, from: null, to: oldest-from-or-current}]
    is appended to the newest-first filtered list and the whole is reversed,
    so the synthetic entry comes first and the filtered events follow in
    reverse order of arrival. *)
Theorem build_changelog_synthetic_first issues k f :
  In (k, f) (build_changelog issues) ->
  exists iss, In iss issues /\ k = id iss /\
    let sc := changes_of "status" (histories iss) in
    let ac := changes_of "assignee" (histories iss) in
    let s0 := initial_entry (fields_created iss) sc (Some (fields_status_id iss)) in
    let a0 := initial_entry (fields_created iss) ac (fields_assignee iss) in
    statuses f = rev (sc ++ [s0]) /\ statuses f = s0 :: rev sc
    /\ assignees f = rev (ac ++ [a0]) /\ assignees f = a0 :: rev ac
    /\ from s0 = None /\ date s0 = fields_created iss
    /\ to s0 = match rev sc with c :: _ => from c | [] => Some (fields_status_id iss) end
    /\ from a0 = None /\ date a0 = fields_created iss
    /\ to a0 = match rev ac with c :: _ => from c | [] => fields_assignee iss end.
Proof.
  intros Hin. destruct (build_changelog_In _ _ _ Hin) as (iss & Hi & -> & ->).
  exists iss. split; [exact Hi|]. split; [reflexivity|].
  assert (Hlast : forall (l : list transition) (d : option transition),
            last (map Some l) d = match rev l with c :: _ => Some c | [] => d end).
  { intros l d. induction l as [|x r IH] using rev_ind; [reflexivity|].
    rewrite map_app, rev_app_distr. simpl. rewrite last_last. reflexivity. }
  cbv zeta. repeat split; try reflexivity; try apply timeline_of_shape;
    unfold initial_entry; simpl; rewrite Hlast; destruct (rev _); reflexivity.
Qed.

Lemma build_changelog_synthetic_first_witness :
  statuses (issue_changelog iss_one_change)
  = initial_entry t0 (changes_of "status" (histories iss_one_change)) (Some "TARGET")
    :: rev (changes_of "status" (histories iss_one_change)).
Proof.
  destruct (build_changelog_synthetic_first [iss_one_change] "I"
              (issue_changelog iss_one_change) (or_introl eq_refl)) as (iss & Hi & _ & H).
  destruct Hi as [<-|[]]. simpl in H. apply H.
Defined.

(** ** Lead selection *)

Section DictOther.
Context {K V : Type} (dec : forall x y : K, {x = y} + {x <> y}).

Lemma dict_set_other k v (d : list (K * V)) k' v' :
  In (k', v') d -> k' <> k -> In (k', v') (dict_set dec k v d).
Proof.
  induction d as [|[k0 v0] r IH]; simpl; [contradiction|].
  destruct (dec k k0) as [->|Hne].
  - intros [[= -> ->]|Hin] Hk; [congruence|]. right. exact Hin.
  - intros [Heq|Hin] Hk; [left; exact Heq|right; auto].
Qed.
End DictOther.

Lemma max_from_spec sr k v :
  exists m, In (max_from k v sr, m) ((k, v) :: sr)
  /\ forall p, In p ((k, v) :: sr) -> snd p <= m.
Proof.
  revert k v. induction sr as [|[k' v'] r IH]; intros k v; simpl.
  - exists v. split; [auto|]. intros p [<-|[]]. simpl. lia.
  - destruct (v <? v') eqn:Hlt.
    + apply Z.ltb_lt in Hlt. destruct (IH k' v') as (m & Hin & Hmax).
      exists m. split; [simpl in Hin; tauto|].
      assert (v' <= m) by (apply (Hmax (k', v')); left; reflexivity).
      intros p [<-|Hp]; [simpl; lia|]. apply Hmax. exact Hp.
    + apply Z.ltb_ge in Hlt. destruct (IH k v) as (m & Hin & Hmax).
      exists m. split; [simpl in Hin |- *; tauto|].
      assert (v <= m) by (apply (Hmax (k, v)); left; reflexivity).
      intros p [<-|[<-|Hp]]; [simpl; lia|simpl; lia|]. apply Hmax. right. exact Hp.
Qed.

Lemma lead_of_spec a :
  a <> [] -> NoDup (map fst a) ->
  exists L s, lead_of a = Some (L, s) /\ In (L, s) a /\ forall k v, In (k, v) a -> v <= s.
Proof.
  destruct a as [|[k v] sr]; [contradiction|]. intros _ Hnd.
  destruct (max_from_spec sr k v) as (m & Hin & Hmax).
  unfold lead_of.
  destruct (dict_get_Some opt_str_dec (max_from k v sr) ((k, v) :: sr)) as [s Hs].
  { apply in_map_iff. exists (max_from k v sr, m). auto. }
  rewrite Hs. apply dict_get_In in Hs.
  pose proof (NoDup_In_same _ _ _ _ Hnd Hs Hin) as ->.
  exists (max_from k v sr), m. split; [reflexivity|]. split; [exact Hs|].
  intros k0 v0 Hp. exact (Hmax (k0, v0) Hp).
Qed.

Lemma lead_of_nil_iff a : lead_of a = None -> a = [].
Proof.
  destruct a as [|[k v] sr]; [reflexivity|]. unfold lead_of.
  destruct (max_from_spec sr k v) as (m & Hin & _).
  destruct (dict_get_Some opt_str_dec (max_from k v sr) ((k, v) :: sr)) as [s Hs].
  { apply in_map_iff. exists (max_from k v sr, m). auto. }
  rewrite Hs. discriminate.
Qed.

(** [per_leads.setdefault(lead, {}); per_leads[lead][issue_id] = score] *)
Lemma lead_update_spec (R : lead_group) L I s :
  (forall L' s', ~ lead_entry R L' I s') ->
  let R1 := setdefault opt_str_dec L [] R in
  let m := match dict_get opt_str_dec L R1 with Some m => m | None => [] end in
  forall L' I' s',
    lead_entry (dict_set opt_str_dec L (dict_set string_dec I s m) R1) L' I' s'
    <-> lead_entry R L' I' s' \/ (L' = L /\ I' = I /\ s' = s).
Proof.
  intros Hfresh R1 m.
  assert (HR1 : forall L' I' s', lead_entry R1 L' I' s' <-> lead_entry R L' I' s').
  { intros L' I' s'. split.
    - intros (m2 & Hm2 & Hi). apply setdefault_In in Hm2 as [Hm2|[= -> ->]];
        [exists m2; auto|destruct Hi].
    - intros (m2 & Hm2 & Hi). exists m2. split; [apply setdefault_keep|]; assumption. }
  destruct (setdefault_get opt_str_dec L [] R) as [m0 Hm0].
  fold R1 in Hm0. unfold m. rewrite Hm0.
  pose proof (dict_get_In _ _ _ _ Hm0) as HinL.
  intros L' I' s'. split.
  - intros (m2 & Hm2 & Hi). apply dict_set_In in Hm2 as [[= -> ->]|Hm2].
    + apply dict_set_In in Hi as [[= -> ->]|Hi]; [tauto|].
      left. apply HR1. exists m0. auto.
    + left. apply HR1. exists m2. auto.
  - intros [He|(-> & -> & ->)].
    + apply HR1 in He as (m2 & Hm2 & Hi).
      assert (HI : I' <> I).
      { intros ->. apply (Hfresh L' s'). apply HR1. exists m2. auto. }
      destruct (dict_set_keep opt_str_dec L m0 (dict_set string_dec I s m0) R1 L' m2 Hm0 Hm2)
        as [Hk|[-> ->]].
      * exists m2. auto.
      * exists (dict_set string_dec I s m0). split; [apply dict_set_In_new|].
        apply dict_set_other; assumption.
    + exists (dict_set string_dec I s m0). split; apply dict_set_In_new.
Qed.

Lemma group_loop_spec w R :
  NoDup (map fst w) ->
  (forall I, In I (map fst w) -> forall L s, ~ lead_entry R L I s) ->
  exists R', group_loop w R = Some R' /\
    forall L I s, lead_entry R' L I s
      <-> lead_entry R L I s \/ exists a, In (I, a) w /\ lead_of a = Some (L, s).
Proof.
  revert R. induction w as [|[I a0] r IH]; intros R Hnd Hfresh.
  - exists R. split; [reflexivity|]. intros L I s. split; [auto|].
    intros [H|(a & [] & _)]. exact H.
  - simpl in Hnd. inversion Hnd as [|? ? HnI Hnd']; subst.
    assert (Hfr : forall I', In I' (map fst r) -> forall L s, ~ lead_entry R L I' s)
      by (intros I' HI'; apply Hfresh; right; exact HI').
    destruct a0 as [|[k v] sr].
    + destruct (IH R Hnd' Hfr) as (R' & HR' & Hspec).
      exists R'. split; [exact HR'|]. intros L I' s. rewrite Hspec. split.
      * intros [H|(a & Ha & Hl)]; [auto|right; exists a; split; [right|]; assumption].
      * intros [H|(a & [Heq|Ha] & Hl)]; [auto| |right; eauto].
        injection Heq as -> <-. discriminate.
    + destruct (lead_of ((k, v) :: sr)) as [[L s]|] eqn:Hlead;
        [|apply lead_of_nil_iff in Hlead; discriminate].
      unfold lead_of in Hlead.
      destruct (dict_get opt_str_dec (max_from k v sr) ((k, v) :: sr)) as [ls|] eqn:Hg;
        [|discriminate].
      injection Hlead as <- <-.
      cbn [group_loop]. rewrite Hg.
      set (Ru := dict_set opt_str_dec (max_from k v sr)
                   (dict_set string_dec I ls
                      match dict_get opt_str_dec (max_from k v sr)
                              (setdefault opt_str_dec (max_from k v sr) [] R) with
                      | Some m => m | None => [] end)
                   (setdefault opt_str_dec (max_from k v sr) [] R)).
      assert (HU := lead_update_spec R (max_from k v sr) I ls (Hfresh I (or_introl eq_refl))).
      cbv zeta in HU. fold Ru in HU.
      destruct (IH Ru Hnd') as (R' & HR' & Hspec).
      { intros I' HI' L' s' He. apply HU in He as [He|(_ & -> & _)].
        - exact (Hfr I' HI' L' s' He).
        - exact (HnI HI'). }
      exists R'. split; [exact HR'|]. intros L' I' s'. rewrite Hspec, HU. split.
      * intros [[H|(-> & -> & ->)]|(a & Ha & Hl)]; [auto| |right; exists a; split; [right|]; assumption].
        right. exists ((k, v) :: sr). split; [left; reflexivity|].
        unfold lead_of. rewrite Hg. reflexivity.
      * intros [H|(a & [Heq|Ha] & Hl)]; [auto| |right; eauto].
        injection Heq as -> <-. unfold lead_of in Hl. rewrite Hg in Hl.
        injection Hl as -> ->. left. right. auto.
Qed.

(** C8: for a workload mapping (issue ids unique, each allocation a dict),
    group_by_lead records for each issue with a non-empty allocation exactly
    one entry [{lead: {issue: score}}], where score is the maximum allocated
    value and lead an assignee holding it; issues with an empty allocation
    appear nowhere, and nothing else is recorded. Scenario C yields
    [{B: {I1: 10.0}, A: {I2: 20.0}}] (values in microseconds). *)
Theorem group_by_lead_spec w :
  NoDup (map fst w) -> (forall I a, In (I, a) w -> NoDup (map fst a)) ->
  exists R, group_by_lead w = Some R
  /\ (forall I a, In (I, a) w -> a <> [] ->
       exists L s, lead_entry R L I s /\ In (L, s) a
       /\ (forall k v, In (k, v) a -> v <= s)
       /\ (forall L' s', lead_entry R L' I s' -> L' = L /\ s' = s))
  /\ (forall I, In (I, []) w -> forall L s, ~ lead_entry R L I s)
  /\ (forall L I s, lead_entry R L I s -> exists a, In (I, a) w /\ a <> [])
  /\ group_by_lead [("I1", [(A, 5000000); (B, 10000000)]); ("I2", [(A, 20000000)])]
     = Some [(B, [("I1", 10000000)]); (A, [("I2", 20000000)])].
Proof.
  intros Hnd Hnda.
  destruct (group_loop_spec w [] Hnd) as (R & HR & Hspec).
  { intros I _ L s (m & [] & _). }
  assert (Hspec' : forall L I s, lead_entry R L I s
                     <-> exists a, In (I, a) w /\ lead_of a = Some (L, s)).
  { intros L I s. rewrite Hspec. split; [|auto].
    intros [(m & [] & _)|H]. exact H. }
  exists R. split; [exact HR|]. split; [|split; [|split]].
  - intros I a Ha Hne.
    destruct (lead_of_spec a Hne (Hnda I a Ha)) as (L & s & Hl & Hin & Hmax).
    exists L, s. split; [apply Hspec'; eauto|]. split; [exact Hin|]. split; [exact Hmax|].
    intros L' s' He. apply Hspec' in He as (a' & Ha' & Hl').
    pose proof (NoDup_In_same _ _ _ _ Hnd Ha Ha') as <-.
    rewrite Hl in Hl'. injection Hl' as -> ->. auto.
  - intros I HI L s He. apply Hspec' in He as (a' & Ha' & Hl').
    pose proof (NoDup_In_same _ _ _ _ Hnd HI Ha') as <-. discriminate.
  - intros L I s He. apply Hspec' in He as (a' & Ha' & Hl').
    exists a'. split; [exact Ha'|]. intros ->. discriminate.
  - vm_compute. reflexivity.
Qed.

Lemma group_by_lead_spec_witness :
  exists R, group_by_lead [("I1", [(A, 5000000); (B, 10000000)]); ("I2", [(A, 20000000)])]
            = Some R
  /\ lead_entry R B "I1" 10000000.
Proof.
  assert (Hnd : NoDup (map fst [("I1", [(A, 5000000); (B, 10000000)]); ("I2", [(A, 20000000)])])).
  { repeat constructor; simpl; intuition discriminate. }
  assert (Hnda : forall I a, In (I, a) [("I1", [(A, 5000000); (B, 10000000)]); ("I2", [(A, 20000000)])]
                  -> NoDup (map fst a)).
  { intros I a [[= _ <-]|[[= _ <-]|[]]]; repeat constructor; simpl; intuition discriminate. }
  destruct (group_by_lead_spec _ Hnd Hnda) as (R & HR & _ & _ & _ & Hc).
  exists R. split; [exact HR|]. rewrite HR in Hc. injection Hc as ->.
  exists [("I1", 10000000)]. split; left; reflexivity.
Defined.

(** ** Malformed timestamps *)

Lemma In_skipn {T} n (l : list T) x : In x (skipn n l) -> In x l.
Proof.
  intros H. rewrite <- (firstn_skipn n l). apply in_or_app. right. exact H.
Qed.


Lemma windows_fail_at issue_id f pre i post idx per log :
  nth_error (statuses f) i = Some log ->
  (strptime (date log) = None
   \/ exists prev, py_index (statuses f) (Z.of_nat i - 1) = Some prev
                   /\ strptime (date prev) = None) ->
  windows issue_id f (pre ++ i :: post) idx per = None.
Proof.
  intros Hlog Hbad. revert idx per.
  induction pre as [|j r IH]; intros idx per; simpl.
  - destruct (py_index (statuses f) (Z.of_nat i - 1)) as [s|] eqn:Hs; [|reflexivity].
    destruct (strptime (date s)) as [start|] eqn:Hst; [|reflexivity].
    rewrite py_index_nonneg, Nat2Z.id, Hlog by lia.
    destruct Hbad as [Hb|(prev & Hp & Hb)].
    + rewrite Hb. reflexivity.
    + congruence.
  - destruct (py_index (statuses f) (Z.of_nat j - 1)) as [s|]; [|reflexivity].
    destruct (strptime (date s)) as [start|]; [|reflexivity].
    destruct (py_index (statuses f) (Z.of_nat j)) as [e|]; [|reflexivity].
    destruct (strptime (date e)) as [end_|]; [|reflexivity].
    destruct (sweep issue_id (skipn idx (assignees f)) idx start end_ per); [|reflexivity].
    apply IH.
Qed.

Lemma nth_error_replace {T} (sp sq : list T) a b n :
  n <> length sp -> nth_error (sp ++ a :: sq) n = nth_error (sp ++ b :: sq) n.
Proof.
  intros Hn. destruct (Nat.lt_ge_cases n (length sp)) as [Hlt|Hge].
  - rewrite !nth_error_app1 by exact Hlt. reflexivity.
  - rewrite !nth_error_app2 by exact Hge.
    destruct (n - length sp)%nat as [|m] eqn:E; [lia|reflexivity].
Qed.

Lemma py_index_start {T} (l : list T) i :
  l <> [] -> py_index l (Z.of_nat i - 1) = nth_error l (window_start_pos (length l) i).
Proof.
  intros Hne. destruct i as [|k]; cbn [window_start_pos].
  - unfold py_index. simpl.
    destruct l as [|x r]; [congruence|]. simpl length.
    replace (Z.of_nat (S (length r)) + -1 <? 0) with false by (symmetry; apply Z.ltb_ge; lia).
    f_equal. lia.
  - rewrite py_index_nonneg by lia. f_equal. lia.
Qed.

Lemma target_status_idx_from l1 l2 target :
  map from l1 = map from l2 -> target_status_idx l1 target = target_status_idx l2 target.
Proof.
  unfold target_status_idx. intros H.
  assert (Hl : length l1 = length l2) by (rewrite <- (length_map from l1), H, length_map; reflexivity).
  rewrite Hl. generalize 0%nat. revert l2 H Hl.
  induction l1 as [|a r IH]; intros [|b r2] H Hl k; try discriminate; [reflexivity|].
  simpl in H, Hl |- *. injection H as Hab Hr. injection Hl as Hl.
  assert (Hf : from_is target a = from_is target b) by (unfold from_is; rewrite Hab; reflexivity).
  rewrite Hf. destruct (from_is target b); simpl; rewrite (IH r2 Hr Hl (S k)); reflexivity.
Qed.

(** The windows never read the date of position [length sp] when no exit
    index and no window start is that position. *)
Lemma windows_replace_date I sp t sq d asg idxs idx per :
  (forall i, In i idxs ->
     i <> length sp /\ window_start_pos (length (sp ++ t :: sq)) i <> length sp) ->
  windows I {| statuses := sp ++ with_date t d :: sq; assignees := asg |} idxs idx per
  = windows I {| statuses := sp ++ t :: sq; assignees := asg |} idxs idx per.
Proof.
  revert idx per. induction idxs as [|i r IH]; intros idx per Hi; simpl; [reflexivity|].
  destruct (Hi i (or_introl eq_refl)) as [Hne Hst].
  assert (Hlen : length (sp ++ with_date t d :: sq) = length (sp ++ t :: sq))
    by (rewrite !length_app; reflexivity).
  rewrite !py_index_start by (destruct sp; discriminate).
  rewrite Hlen, (nth_error_replace sp sq (with_date t d) t _ Hst).
  rewrite !py_index_nonneg by lia. rewrite Nat2Z.id.
  rewrite (nth_error_replace sp sq (with_date t d) t _ Hne).
  destruct (nth_error (sp ++ t :: sq) (window_start_pos (length (sp ++ t :: sq)) i))
    as [s|]; [|reflexivity].
  destruct (strptime (date s)) as [x|]; [|reflexivity].
  destruct (nth_error (sp ++ t :: sq) i) as [e|]; [|reflexivity].
  destruct (strptime (date e)) as [y|]; [|reflexivity].
  destruct (sweep I (skipn idx asg) idx x y per) as [[p' idx']|]; [|reflexivity].
  apply IH. intros j Hj. apply Hi. right. exact Hj.
Qed.

(** The sweep stops at the first assignee transition dated no earlier than
    the window's end (and the start); what follows it is never parsed. *)
Lemma sweep_stops I rest tail idx start end_ per a y :
  Forall (fun t => parses (date t)) rest ->
  In a rest -> strptime (date a) = Some y -> start <= y -> end_ <= y ->
  exists per' idx', sweep I rest idx start end_ per = Some (per', idx')
    /\ sweep I (rest ++ tail) idx start end_ per = Some (per', idx')
    /\ (idx' < idx + length rest)%nat.
Proof.
  revert idx start per. induction rest as [|b r IH]; intros idx start per Hp Ha Hy Hs He;
    [destruct Ha|].
  inversion Hp as [|? ? [dt Hdt] Hp']; subst. simpl. rewrite Hdt.
  destruct Ha as [<-|Ha].
  - rewrite Hdt in Hy. injection Hy as <-.
    replace (dt <? start) with false by (symmetry; apply Z.ltb_ge; lia).
    replace (dt <? end_) with false by (symmetry; apply Z.ltb_ge; lia).
    eexists _, idx. split; [reflexivity|]. split; [reflexivity|lia].
  - destruct (Z.ltb_spec dt start).
    + destruct (IH (S idx) start per Hp' Ha Hy Hs He) as (p' & i' & H1 & H2 & H3).
      exists p', i'. split; [exact H1|]. split; [exact H2|lia].
    + destruct (Z.ltb_spec dt end_).
      * destruct (IH (S idx) dt (credit per I (from b) (datetime_compare_dt dt start))
                    Hp' Ha Hy ltac:(lia) He) as (p' & i' & H1 & H2 & H3).
        exists p', i'. split; [exact H1|]. split; [exact H2|lia].
      * eexists _, idx. split; [reflexivity|]. split; [reflexivity|lia].
Qed.

Lemma py_index_In {T} (l : list T) z x : py_index l z = Some x -> In x l.
Proof.
  unfold py_index. destruct (z <? 0); [destruct (_ <? 0); [discriminate|]|];
    apply nth_error_In.
Qed.

Lemma windows_drop_tail I sts a1 z a2 idxs idx per :
  (idx <= length a1)%nat ->
  Forall (fun t => parses (date t)) (a1 ++ [z]) ->
  Forall (fun t => date_le (date t) (date z)) sts ->
  windows I {| statuses := sts; assignees := a1 ++ z :: a2 |} idxs idx per
  = windows I {| statuses := sts; assignees := a1 ++ [z] |} idxs idx per.
Proof.
  intros Hidx Hp Hz. revert idx per Hidx. induction idxs as [|i r IH]; intros idx per Hidx;
    simpl; [reflexivity|].
  destruct (py_index sts (Z.of_nat i - 1)) as [s|] eqn:Es; [|reflexivity].
  destruct (strptime (date s)) as [x|] eqn:Ex; [|reflexivity].
  destruct (py_index sts (Z.of_nat i)) as [e|] eqn:Ee; [|reflexivity].
  destruct (strptime (date e)) as [y|] eqn:Ey; [|reflexivity].
  rewrite Forall_forall in Hz.
  destruct (Hz s (py_index_In _ _ _ Es)) as (x' & yz & Hx' & Hyz & Hxz).
  destruct (Hz e (py_index_In _ _ _ Ee)) as (y' & yz' & Hy' & Hyz' & Hyz2).
  rewrite Ex in Hx'. injection Hx' as <-. rewrite Ey in Hy'. injection Hy' as <-.
  rewrite Hyz in Hyz'. injection Hyz' as <-.
  assert (Hsk : skipn idx (a1 ++ z :: a2) = skipn idx (a1 ++ [z]) ++ a2).
  { rewrite !skipn_app. replace (idx - length a1)%nat with 0%nat by lia.
    simpl. rewrite <- app_assoc. reflexivity. }
  destruct (sweep_stops I (skipn idx (a1 ++ [z])) a2 idx x y per z yz)
    as (p' & i' & H1 & H2 & H3).
  { rewrite Forall_forall in Hp |- *. intros t Ht. exact (Hp t (In_skipn _ _ _ Ht)). }
  { rewrite skipn_app. replace (idx - length a1)%nat with 0%nat by lia.
    apply in_or_app. right. left. reflexivity. }
  { exact Hyz. }
  { exact Hxz. }
  { exact Hyz2. }
  rewrite Hsk, H1, H2. simpl. apply IH.
  rewrite length_skipn, length_app in H3. simpl in H3. lia.
Qed.

(** C9 (amended): a malformed timestamp on a status transition that leaves
    the target status, or on the transition read as that window's start
    (index i - 1, the last one when i = 0), makes calculate_workload fail
    instead of producing a result. Other timestamps are not all parsed, so a
    malformed one can go undetected: (2) the date of a status transition
    that neither leaves the target status nor is read as a window's start
    never affects the result, whatever string it holds; (3) on an assignee
    timeline whose transitions up to some [z] parse, [z] being dated no
    earlier than every status transition, the transitions after [z] are
    never read: dropping them leaves the result unchanged. *)
Theorem malformed_window_bound_fails :
  (forall pre issue_id f post target i log,
     nth_error (statuses f) i = Some log -> from log = target ->
     (strptime (date log) = None
      \/ exists prev, py_index (statuses f) (Z.of_nat i - 1) = Some prev
                      /\ strptime (date prev) = None) ->
     calculate_workload (pre ++ (issue_id, f) :: post) target = None)
  /\ (forall pre issue_id sp t sq asg post target d,
        (forall i, In i (target_status_idx (sp ++ t :: sq) target) ->
           i <> length sp /\ window_start_pos (length (sp ++ t :: sq)) i <> length sp) ->
        calculate_workload
          (pre ++ (issue_id, {| statuses := sp ++ with_date t d :: sq; assignees := asg |})
               :: post) target
        = calculate_workload
            (pre ++ (issue_id, {| statuses := sp ++ t :: sq; assignees := asg |}) :: post)
            target)
  /\ (forall pre issue_id sts a1 z a2 post target,
        Forall (fun t => parses (date t)) (a1 ++ [z]) ->
        Forall (fun t => date_le (date t) (date z)) sts ->
        calculate_workload
          (pre ++ (issue_id, {| statuses := sts; assignees := a1 ++ z :: a2 |}) :: post) target
        = calculate_workload
            (pre ++ (issue_id, {| statuses := sts; assignees := a1 ++ [z] |}) :: post) target).
Proof.
  split; [|split].
  - intros pre issue_id f post target i log Hlog Hfrom Hbad.
    assert (Hi : In i (target_status_idx (statuses f) target))
      by (apply target_status_idx_spec; eauto).
    apply in_split in Hi as (l1 & l2 & Hsplit).
    unfold calculate_workload. rewrite calculate_loop_app.
    destruct (calculate_loop pre target []) as [p|]; [|reflexivity].
    simpl. unfold issue_workload. rewrite Hsplit.
    rewrite (windows_fail_at issue_id f l1 i l2 0 p log Hlog Hbad). reflexivity.
  - intros pre issue_id sp t sq asg post target d Hi.
    unfold calculate_workload. rewrite !calculate_loop_app.
    destruct (calculate_loop pre target []) as [p|]; [|reflexivity].
    simpl. unfold issue_workload. simpl.
    rewrite (target_status_idx_from (sp ++ with_date t d :: sq) (sp ++ t :: sq))
      by (rewrite !map_app; reflexivity).
    rewrite windows_replace_date by exact Hi. reflexivity.
  - intros pre issue_id sts a1 z a2 post target Hp Hz.
    unfold calculate_workload. rewrite !calculate_loop_app.
    destruct (calculate_loop pre target []) as [p|]; [|reflexivity].
    simpl. unfold issue_workload. simpl.
    rewrite windows_drop_tail by (lia || assumption). reflexivity.
Qed.

Lemma malformed_window_bound_fails_witness :
  calculate_workload
    [("I", {| statuses := [tr t0 None S0; tr t1 S0 TARGET; tr "not-a-date" TARGET S0];
              assignees := [tr t0 None A] |})] TARGET = None
  /\ calculate_workload [("I", malformed_status_tail)] TARGET
     = Some [("I", [(A, 86400000000)])]
  /\ calculate_workload [("I", malformed_after_window)] TARGET
     = Some [("I", [(A, 21600000000)])].
Proof.
  destruct malformed_window_bound_fails as (H1 & H2 & H3).
  split; [|split].
  - apply (H1 [] "I" _ [] TARGET 2%nat (tr "not-a-date" TARGET S0));
      [reflexivity|reflexivity|].
    left. vm_compute. reflexivity.
  - refine (eq_trans (H2 [] "I" [tr t0 None S0; tr t1 S0 TARGET; tr t2 TARGET S0]
                         (tr t2 S0 B) [] [tr t0 None A; tr t2 A B] [] TARGET "not-a-date" _) _).
    + intros i Hi. vm_compute in Hi. destruct Hi as [<-|[]]. split; discriminate.
    + vm_compute. reflexivity.
  - refine (eq_trans (H3 [] "I" [tr t0 None S0; tr t1 S0 TARGET; tr t1h TARGET S0]
                         [tr t0 None A] (tr t2 A B) [tr "not-a-date" B A] [] TARGET _ _) _).
    + concrete_order.
    + concrete_order.
    + vm_compute. reflexivity.
Defined.

(** ** Further properties of the code *)

Section DictGet.
Context {K V : Type} (dec : forall x y : K, {x = y} + {x <> y}).

Lemma dict_get_set k v (d : list (K * V)) k' :
  dict_get dec k' (dict_set dec k v d)
  = if dec k' k then Some v else dict_get dec k' d.
Proof.
  induction d as [|[k0 v0] r IH]; simpl.
  - destruct (dec k' k); reflexivity.
  - destruct (dec k k0) as [->|Hne]; simpl.
    + destruct (dec k' k0); reflexivity.
    + rewrite IH. destruct (dec k' k0) as [->|Hne'].
      * destruct (dec k0 k); [congruence|]. simpl. destruct (dec k0 k0); [reflexivity|congruence].
      * destruct (dec k' k); [reflexivity|]. simpl. destruct (dec k' k0); [congruence|reflexivity].
Qed.

Lemma dict_set_NoDup k v (d : list (K * V)) :
  NoDup (map fst d) -> NoDup (map fst (dict_set dec k v d)).
Proof.
  induction d as [|[k0 v0] r IH]; simpl; intros Hnd.
  - repeat constructor. simpl. tauto.
  - inversion Hnd as [|? ? Hnotin Hnd']; subst.
    destruct (dec k k0) as [->|Hne]; simpl; constructor; auto.
    intros Hk. apply dict_set_keys in Hk as [->|Hk]; [congruence|contradiction].
Qed.
End DictGet.

Lemma find_app {T} (p : T -> bool) l1 l2 :
  find p (l1 ++ l2) = match find p l1 with Some x => Some x | None => find p l2 end.
Proof.
  induction l1 as [|a r IH]; simpl; [reflexivity|].
  destruct (p a); [reflexivity|exact IH].
Qed.

Lemma map_issues_loop_get issues m k :
  dict_get string_dec k (map_issues_loop issues m)
  = match dict_get string_dec k m with
    | Some e => Some e
    | None => option_map info_of (find (fun iss => String.eqb (ri_id iss) k) issues)
    end.
Proof.
  revert m. induction issues as [|iss r IH]; intros m; simpl.
  - destruct (dict_get string_dec k m); reflexivity.
  - rewrite IH, dict_get_set.
    destruct (string_dec k (ri_id iss)) as [->|Hne].
    + rewrite String.eqb_refl. destruct (dict_get string_dec (ri_id iss) m); reflexivity.
    + replace (String.eqb (ri_id iss) k) with false
        by (symmetry; apply String.eqb_neq; congruence).
      reflexivity.
Qed.

Lemma map_issues_loop_NoDup issues m :
  NoDup (map fst m) -> NoDup (map fst (map_issues_loop issues m)).
Proof.
  revert m. induction issues as [|iss r IH]; intros m Hm; simpl; [exact Hm|].
  apply IH, dict_set_NoDup, Hm.
Qed.

(** map_issues: each issue id is a key once, and its entry holds the key,
    summary and time estimate of the FIRST issue in the response with that id
    (a later duplicate never overwrites it); an id that no issue carries has
    no entry. *)
Theorem map_issues_first_wins issues k :
  dict_get string_dec k (map_issues issues)
    = option_map info_of (find (fun iss => String.eqb (ri_id iss) k) issues)
  /\ NoDup (map fst (map_issues issues)).
Proof.
  split.
  - unfold map_issues. rewrite map_issues_loop_get. reflexivity.
  - apply map_issues_loop_NoDup. constructor.
Qed.

Lemma build_changelog_loop_get issues m k :
  dict_get string_dec k (build_changelog_loop issues m)
  = match find (fun iss => String.eqb (id iss) k) (rev issues) with
    | Some iss => Some (issue_changelog iss)
    | None => dict_get string_dec k m
    end.
Proof.
  revert m. induction issues as [|iss r IH]; intros m; simpl; [reflexivity|].
  rewrite IH, find_app, dict_get_set. simpl.
  destruct (find (fun iss0 => String.eqb (id iss0) k) (rev r)); [reflexivity|].
  destruct (string_dec k (id iss)) as [->|Hne].
  - rewrite String.eqb_refl. reflexivity.
  - replace (String.eqb (id iss) k) with false
      by (symmetry; apply String.eqb_neq; congruence).
    reflexivity.
Qed.

Lemma build_changelog_loop_NoDup issues m :
  NoDup (map fst m) -> NoDup (map fst (build_changelog_loop issues m)).
Proof.
  revert m. induction issues as [|iss r IH]; intros m Hm; simpl; [exact Hm|].
  apply IH, dict_set_NoDup, Hm.
Qed.

(** build_changelog: each issue id is a key once, and when the response holds
    several issues with the same id, the entry is built from the LAST of them
    (each occurrence overwrites the previous one in place). *)
Theorem build_changelog_last_wins issues k :
  dict_get string_dec k (build_changelog issues)
    = option_map issue_changelog (find (fun iss => String.eqb (id iss) k) (rev issues))
  /\ NoDup (map fst (build_changelog issues)).
Proof.
  split.
  - unfold build_changelog. rewrite build_changelog_loop_get.
    destruct (find _ _); reflexivity.
  - unfold build_changelog. apply build_changelog_loop_NoDup. constructor.
Qed.

Lemma find_loop_skip_lt pre rest q z prev :
  strptime q = Some z ->
  (forall u, In u pre -> exists x, strptime (date u) = Some x /\ x < z) ->
  exists prev', find_loop (pre ++ rest) q false prev = find_loop rest q false prev'.
Proof.
  intros Hq. revert prev. induction pre as [|u r IH]; intros prev Hpre; simpl; [eauto|].
  destruct (Hpre u (or_introl eq_refl)) as (x & Hx & Hxz).
  unfold datetime_compare, datetime_compare_dt. rewrite Hx, Hq.
  replace (- (z - x) <? 0) with true by (symmetry; apply Z.ltb_lt; lia).
  apply IH. intros; apply Hpre; right; assumption.
Qed.

(** find_at_time with [inclusive=False], on a timeline whose timestamps are
    instants in non-decreasing order: the result is the last transition
    dated strictly before the query; transitions dated exactly at the query
    are not seen. *)
Theorem find_at_time_strictly_before cl issue_id key f l pre t post q z :
  dict_get string_dec issue_id cl = Some f -> timeline f key = Some l ->
  Forall (fun t => parses (date t)) l -> Sorted tr_le l ->
  l = pre ++ t :: post -> strptime q = Some z ->
  date_lt (date t) q ->
  (forall u, In u post -> exists x, strptime (date u) = Some x /\ z <= x) ->
  find_at_time cl q issue_id key false = Some t.
Proof.
  intros Hf Hl Hparse Hs -> Hq (x & z' & Hx & Hz' & Hxz) Hpost.
  rewrite Hq in Hz'. injection Hz' as <-.
  unfold find_at_time. rewrite Hf. simpl. rewrite Hl. simpl.
  apply Sorted_StronglySorted in Hs; [|exact tr_le_trans].
  destruct (find_loop_skip_lt pre (t :: post) q z None Hq) as [prev' Hskip].
  { intros u Hu. destruct (StronglySorted_app_cross _ _ _ Hs u t Hu (or_introl eq_refl))
      as (a & b & Ha & Hb & Hab).
    exists a. split; [exact Ha|]. rewrite Hx in Hb. injection Hb as <-. lia. }
  unfold find_in. rewrite Hskip. simpl.
  unfold datetime_compare, datetime_compare_dt. rewrite Hx, Hq.
  replace (- (z - x) <? 0) with true by (symmetry; apply Z.ltb_lt; lia). simpl.
  destruct post as [|u post']; simpl; [reflexivity|].
  destruct (Hpost u (or_introl eq_refl)) as (y & Hy & Hzy).
  unfold datetime_compare, datetime_compare_dt. rewrite Hy, Hq.
  replace (- (z - y) <? 0) with false by (symmetry; apply Z.ltb_ge; lia).
  reflexivity.
Qed.

Lemma find_at_time_strictly_before_witness :
  find_at_time [("I", tie_log)] t1h "I" "assignees" false = Some (tr t0 None A).
Proof.
  apply (find_at_time_strictly_before [("I", tie_log)] "I" "assignees" tie_log
           (assignees tie_log) [tr t0 None None] (tr t0 None A) [tr t1h A B] t1h
           1672675200000000 eq_refl eq_refl); try reflexivity.
  - concrete_order.
  - concrete_order.
  - exists 1672567200000000, 1672675200000000. vm_compute. repeat split; reflexivity.
  - intros u [<-|[]]. exists 1672675200000000. split; [vm_compute; reflexivity|lia].
Defined.

Lemma max_from_first sr k v :
  (max_from k v sr = k /\ Forall (fun p => snd p <= v) sr)
  \/ exists pre m post, sr = pre ++ (max_from k v sr, m) :: post /\ v < m
     /\ Forall (fun p => snd p < m) pre /\ Forall (fun p => snd p <= m) post.
Proof.
  revert k v. induction sr as [|[k' v'] r IH]; intros k v; simpl; [auto|].
  destruct (Z.ltb_spec v v') as [Hlt|Hge].
  - right. destruct (IH k' v') as [[-> Hall]|(pre & m & post & Hr & Hm & Hpre & Hpost)].
    + exists [], v', r. simpl. repeat split; auto.
    + exists ((k', v') :: pre), m, post. rewrite Hr at 1.
      split; [reflexivity|]. split; [lia|].
      split; [constructor; [simpl; lia|exact Hpre]|exact Hpost].
  - destruct (IH k v) as [[-> Hall]|(pre & m & post & Hr & Hm & Hpre & Hpost)].
    + left. split; [reflexivity|]. constructor; [simpl; lia|exact Hall].
    + right. exists ((k', v') :: pre), m, post. rewrite Hr at 1.
      split; [reflexivity|]. split; [lia|].
      split; [constructor; [simpl; lia|exact Hpre]|exact Hpost].
Qed.

Lemma dict_get_after_pre (pre post : alloc) L m :
  NoDup (map fst (pre ++ (L, m) :: post)) ->
  dict_get opt_str_dec L (pre ++ (L, m) :: post) = Some m.
Proof.
  intros Hnd. destruct (dict_get opt_str_dec L (pre ++ (L, m) :: post)) as [m'|] eqn:E.
  - apply dict_get_In in E. f_equal. eapply NoDup_In_same; [exact Hnd|exact E|].
    apply in_or_app. right. left. reflexivity.
  - apply dict_get_None in E. exfalso. apply E. rewrite map_app. apply in_or_app.
    right. left. reflexivity.
Qed.

(** group_by_lead's choice of lead for one issue (its allocation's keys being
    distinct, as in a dict): the lead is the FIRST assignee, in the
    allocation's insertion order, with the greatest score. Every assignee
    before it scores strictly less, every one after it at most as much. *)
Theorem lead_first_maximum scores :
  scores <> [] -> NoDup (map fst scores) ->
  exists pre L s post, scores = pre ++ (L, s) :: post
    /\ lead_of scores = Some (L, s)
    /\ Forall (fun p => snd p < s) pre /\ Forall (fun p => snd p <= s) post.
Proof.
  destruct scores as [|[k v] sr]; [contradiction|]. intros _ Hnd.
  unfold lead_of.
  destruct (max_from_first sr k v) as [[Hk Hall]|(pre & m & post & Hr & Hm & Hpre & Hpost)].
  - exists [], k, v, sr. rewrite Hk. simpl. destruct (opt_str_dec k k); [|congruence].
    repeat split; auto.
  - exists ((k, v) :: pre), (max_from k v sr), m, post.
    assert (Hsplit : (k, v) :: sr = ((k, v) :: pre) ++ (max_from k v sr, m) :: post)
      by (simpl; f_equal; exact Hr).
    split; [exact Hsplit|]. split.
    + assert (Hg : dict_get opt_str_dec (max_from k v sr) ((k, v) :: sr) = Some m).
      { rewrite Hsplit. apply dict_get_after_pre. rewrite <- Hsplit. exact Hnd. }
      cbv zeta. rewrite Hg. reflexivity.
    + split; [constructor; [simpl; lia|exact Hpre]|exact Hpost].
Qed.

Lemma lead_first_maximum_witness :
  exists pre L s post,
    [(A, 5); (B, 5)] = pre ++ (L, s) :: post /\ lead_of [(A, 5); (B, 5)] = Some (L, s)
    /\ Forall (fun p => snd p < s) pre /\ Forall (fun p => snd p <= s) post.
Proof.
  apply lead_first_maximum; [discriminate|]. simpl.
  constructor; [simpl; intros [H|[]]; discriminate|].
  constructor; [simpl; intros []|constructor].
Defined.

(** *** Issues without status changes *)




(** *** Who can be credited *)

Lemma credit_from cl per I who x :
  credited_from cl per ->
  (exists f t, In (I, f) cl /\ In t (assignees f) /\ from t = who) ->
  credited_from cl (credit per I who x).
Proof.
  intros Hinv Hwho J a w y HJ Hw. unfold credit in HJ.
  apply dict_set_In in HJ as [[= -> ->]|HJ]; [|exact (Hinv J a w y HJ Hw)].
  apply dict_set_In in Hw as [[= -> _]|Hw]; [exact Hwho|].
  destruct (dict_get string_dec I per) as [a0|] eqn:Ea; [|destruct Hw].
  exact (Hinv I a0 w y (dict_get_In _ _ _ _ Ea) Hw).
Qed.

Lemma sweep_from cl I f rest idx start end_ per per' idx' :
  In (I, f) cl -> (forall t, In t rest -> In t (assignees f)) ->
  credited_from cl per ->
  sweep I rest idx start end_ per = Some (per', idx') -> credited_from cl per'.
Proof.
  intros Hf. revert idx start per. induction rest as [|a r IH]; intros idx start per Hr Hinv; simpl.
  - intros [= <- _]. exact Hinv.
  - assert (Hw : exists f0 t, In (I, f0) cl /\ In t (assignees f0) /\ from t = from a)
      by (exists f, a; split; [exact Hf|]; split; [apply Hr; left|]; reflexivity).
    destruct (strptime (date a)) as [dt|]; [|discriminate].
    destruct (dt <? start); [apply IH; auto; intros; apply Hr; right; assumption|].
    destruct (dt <? end_).
    + apply IH; [intros; apply Hr; right; assumption|]. apply credit_from; assumption.
    + intros [= <- _]. apply credit_from; assumption.
Qed.

Lemma windows_from cl I f idxs idx per per' :
  In (I, f) cl -> credited_from cl per ->
  windows I f idxs idx per = Some per' -> credited_from cl per'.
Proof.
  intros Hf. revert idx per. induction idxs as [|i r IH]; intros idx per Hinv; simpl.
  - intros [= <-]. exact Hinv.
  - destruct (py_index (statuses f) (Z.of_nat i - 1)) as [s|]; [|discriminate].
    destruct (strptime (date s)) as [x|]; [|discriminate].
    destruct (py_index (statuses f) (Z.of_nat i)) as [e|]; [|discriminate].
    destruct (strptime (date e)) as [y|]; [|discriminate].
    destruct (sweep I (skipn idx (assignees f)) idx x y per) as [[p j]|] eqn:Hs; [|discriminate].
    simpl. apply IH. eapply sweep_from; [exact Hf| |exact Hinv|exact Hs].
    intros t Ht. exact (In_skipn _ _ _ Ht).
Qed.

(** calculate_workload credits time to an assignee of an issue only when that
    assignee (possibly null, for unassigned time) is the [from] side of a
    transition in the same issue's assignee timeline: the [to] side of an
    issue's latest assignee transition, the current holder, is never credited
    unless it held the issue before some transition too. *)
Theorem workload_credits_from_side cl target r :
  calculate_workload cl target = Some r ->
  forall I a who x, In (I, a) r -> In (who, x) a ->
  exists f t, In (I, f) cl /\ In t (assignees f) /\ from t = who.
Proof.
  assert (Hgen : forall cl', incl cl' cl -> forall per r,
            credited_from cl per -> calculate_loop cl' target per = Some r ->
            credited_from cl r).
  { induction cl' as [|[I f] rest IH]; intros Hincl per r' Hinv; simpl.
    - intros [= <-]. exact Hinv.
    - unfold issue_workload.
      destruct (windows I f (target_status_idx (statuses f) target) 0 per) as [p|] eqn:Hw;
        [|discriminate].
      apply IH; [intros y Hy; apply Hincl; right; exact Hy|].
      eapply windows_from; [apply Hincl; left; reflexivity|exact Hinv|exact Hw]. }
  intros Hr. apply (Hgen cl (incl_refl cl) [] r); [|exact Hr].
  intros I a who x [].
Qed.

Lemma workload_credits_from_side_witness :
  exists f t, In ("I", f) [("I", scenario_A)] /\ In t (assignees f) /\ from t = A.
Proof.
  apply (workload_credits_from_side [("I", scenario_A)] TARGET [("I", [(A, 21600000000)])]
           (ltac:(vm_compute; reflexivity)) "I" [(A, 21600000000)] A 21600000000);
    left; reflexivity.
Defined.

(** *** map_assignees *)

Lemma assignee_steps_app l1 l2 m :
  assignee_steps (l1 ++ l2) m
  = match assignee_steps l1 m with Some m' => assignee_steps l2 m' | None => None end.
Proof.
  revert m. induction l1 as [|[d it] r IH]; intros m; simpl; [reflexivity|].
  destruct (assignee_step d it m); [apply IH|reflexivity].
Qed.

Lemma map_assignees_items_steps d items m :
  map_assignees_items d items m = assignee_steps (map (fun it => (d, it)) items) m.
Proof.
  revert m. induction items as [|it r IH]; intros m; simpl; [reflexivity|].
  destruct (assignee_step d it m); [apply IH|reflexivity].
Qed.

Lemma map_assignees_histories_steps hs m :
  map_assignees_histories hs m
  = assignee_steps (flat_map (fun h => map (fun it => (rh_created h, it)) (rh_items h)) hs) m.
Proof.
  revert m. induction hs as [|h r IH]; intros m; simpl; [reflexivity|].
  rewrite assignee_steps_app, map_assignees_items_steps.
  destruct (assignee_steps _ m); [apply IH|reflexivity].
Qed.

Lemma map_assignees_steps issues :
  map_assignees issues = assignee_steps (dated_items issues) [].
Proof.
  unfold map_assignees, dated_items. generalize (@nil (string * assignee_entry)).
  induction issues as [|iss r IH]; intros m; simpl; [reflexivity|].
  rewrite assignee_steps_app, map_assignees_histories_steps.
  destruct (assignee_steps _ m); [apply IH|reflexivity].
Qed.

Lemma assigns_to_same it acc acc' : assigns_to it acc -> assigns_to it acc' -> acc = acc'.
Proof. intros (_ & _ & H1) (_ & _ & H2). congruence. Qed.

Lemma am_inv_skip processed m d it :
  am_inv processed m -> (forall acc, ~ assigns_to it acc) ->
  am_inv (processed ++ [(d, it)]) m.
Proof.
  intros (Hnd & HB & HC) Hno. split; [exact Hnd|]. split.
  - intros acc e He. destruct (HB acc e He) as (it0 & Hi & Ha & Hn).
    exists it0. split; [apply in_or_app; left; exact Hi|auto].
  - intros d' it' acc Hi Ha. apply in_app_iff in Hi as [Hi|[[= <- <-]|[]]].
    + exact (HC d' it' acc Hi Ha).
    + exfalso. exact (Hno acc Ha).
Qed.

Lemma am_inv_set processed m d it acc v :
  am_inv processed m -> assigns_to it acc ->
  (exists it', In (a_created v, it') (processed ++ [(d, it)])
               /\ assigns_to it' acc /\ a_name v = it_toString it') ->
  date_le d (a_created v) ->
  (forall d' it' e, In (d', it') processed -> assigns_to it' acc -> In (acc, e) m ->
     date_le d' (a_created e) -> date_le d' (a_created v)) ->
  am_inv (processed ++ [(d, it)]) (dict_set string_dec acc v m).
Proof.
  intros (Hnd & HB & HC) Hacc Hv Hdv Hlater.
  split; [apply dict_set_NoDup; exact Hnd|]. split.
  - intros acc' e He. apply dict_set_In in He as [[= -> ->]|He]; [exact Hv|].
    destruct (HB acc' e He) as (it0 & Hi & Ha & Hn).
    exists it0. split; [apply in_or_app; left; exact Hi|auto].
  - intros d' it' acc' Hi Ha. apply in_app_iff in Hi as [Hi|[[= <- <-]|[]]].
    + destruct (HC d' it' acc' Hi Ha) as (e & He & Hde).
      destruct (string_dec acc' acc) as [->|Hne].
      * exists v. split; [apply dict_set_In_new|]. exact (Hlater d' it' e Hi Ha He Hde).
      * exists e. split; [apply dict_set_other; assumption|exact Hde].
    + rewrite (assigns_to_same _ _ _ Ha Hacc). exists v. split; [apply dict_set_In_new|exact Hdv].
Qed.

Lemma assignee_step_inv processed m d it :
  parses d -> Forall (fun p => parses (fst p)) processed -> am_inv processed m ->
  exists m', assignee_step d it m = Some m' /\ am_inv (processed ++ [(d, it)]) m'.
Proof.
  intros [x Hx] Hp Hinv.
  assert (Hdd : date_le d d) by (exists x, x; auto with zarith).
  unfold assignee_step.
  destruct (String.eqb (it_field it) "assignee") eqn:E1;
  destruct (String.eqb (it_fieldtype it) "jira") eqn:E2; simpl;
  try (exists m; split; [reflexivity|]; apply am_inv_skip; [exact Hinv|];
       intros acc (H1 & H2 & _); apply String.eqb_eq in H1, H2; congruence).
  apply String.eqb_eq in E1, E2.
  destruct (it_to it) as [acc|] eqn:Eto.
  2:{ exists m. split; [reflexivity|]. apply am_inv_skip; [exact Hinv|].
      intros acc (_ & _ & H). congruence. }
  assert (Hacc : assigns_to it acc) by (repeat split; assumption).
  assert (Hfresh : exists it', In (d, it') (processed ++ [(d, it)])
                    /\ assigns_to it' acc /\ it_toString it = it_toString it')
    by (exists it; split; [apply in_or_app; right; left; reflexivity|auto]).
  destruct Hinv as (Hnd & HB & HC).
  destruct (dict_get string_dec acc m) as [old|] eqn:Eg.
  - apply dict_get_In in Eg as Hold.
    destruct (HB acc old Hold) as (it0 & Hi0 & Ha0 & Hn0).
    rewrite Forall_forall in Hp. destruct (Hp _ Hi0) as [y Hy]. simpl in Hy.
    rewrite Hx, Hy.
    eexists. split; [reflexivity|].
    destruct (Z.ltb_spec y x) as [Hyx|Hxy].
    + apply am_inv_set; [repeat split; assumption|exact Hacc|exact Hfresh|exact Hdd|].
      intros d' it' e _ _ He Hde. simpl.
      rewrite (NoDup_In_same _ _ _ _ Hnd He Hold) in Hde.
      apply (date_le_trans _ _ _ Hde). exists y, x. auto with zarith.
    + apply am_inv_set; [repeat split; assumption|exact Hacc| |exists x, y; auto|].
      * exists it0. split; [apply in_or_app; left; exact Hi0|auto].
      * intros d' it' e _ _ He Hde. rewrite (NoDup_In_same _ _ _ _ Hnd He Hold) in Hde.
        exact Hde.
  - eexists. split; [reflexivity|].
    apply am_inv_set; [repeat split; assumption|exact Hacc|exact Hfresh|exact Hdd|].
    intros d' it' e _ _ He _. exfalso. apply dict_get_None in Eg. apply Eg.
    apply in_map_iff. exists (acc, e). auto.
Qed.

Lemma assignee_steps_inv l processed m :
  Forall (fun p => parses (fst p)) (processed ++ l) -> am_inv processed m ->
  exists m', assignee_steps l m = Some m' /\ am_inv (processed ++ l) m'.
Proof.
  revert processed m. induction l as [|[d it] r IH]; intros processed m Hp Hinv; simpl.
  - exists m. rewrite app_nil_r. auto.
  - apply Forall_app in Hp as [Hp1 Hp2]. inversion Hp2 as [|? ? Hd Hr]; subst.
    destruct (assignee_step_inv processed m d it Hd Hp1 Hinv) as (m1 & Hs & Hinv1).
    rewrite Hs.
    replace (processed ++ (d, it) :: r) with ((processed ++ [(d, it)]) ++ r)
      by (rewrite <- app_assoc; reflexivity).
    apply IH; [|exact Hinv1].
    rewrite <- app_assoc. apply Forall_app. split; [exact Hp1|exact Hp2].
Qed.

(** map_assignees, when every history timestamp of the response parses:
    it succeeds; each account assigned by some "assignee" item of fieldtype
    "jira" with a non-null [to] has exactly one entry; the entry carries the
    display name and history date of one such assignment to that account,
    and that date is no earlier than the date of any assignment to it (the
    latest assignment wins). Accounts never assigned have no entry. *)
Theorem map_assignees_latest issues :
  Forall (fun p => parses (fst p)) (dated_items issues) ->
  exists m, map_assignees issues = Some m /\ NoDup (map fst m)
    /\ (forall acc e, In (acc, e) m -> exists it,
          In (a_created e, it) (dated_items issues) /\ assigns_to it acc
          /\ a_name e = it_toString it)
    /\ (forall d it acc, In (d, it) (dated_items issues) -> assigns_to it acc ->
          exists e, In (acc, e) m /\ date_le d (a_created e)).
Proof.
  intros Hp. rewrite map_assignees_steps.
  destruct (assignee_steps_inv (dated_items issues) [] [] Hp) as (m & Hm & Hinv).
  { split; [constructor|]. split; [intros ? ? []|intros ? ? ? []]. }
  exists m. split; [exact Hm|]. exact Hinv.
Qed.

Lemma map_assignees_latest_witness :
  map_assignees two_assignments = Some [("u1", {| a_name := Some "New name"; a_created := t2 |})]
  /\ exists m, map_assignees two_assignments = Some m /\ NoDup (map fst m)
    /\ (forall acc e, In (acc, e) m -> exists it,
          In (a_created e, it) (dated_items two_assignments) /\ assigns_to it acc
          /\ a_name e = it_toString it)
    /\ (forall d it acc, In (d, it) (dated_items two_assignments) -> assigns_to it acc ->
          exists e, In (acc, e) m /\ date_le d (a_created e)).
Proof.
  split; [vm_compute; reflexivity|].
  apply map_assignees_latest. simpl. repeat constructor; simpl; concrete_order.
Defined.

(** *** info.analyze_issues *)

Section CounterFacts.
Context {K : Type} (dec : forall x y : K, {x = y} + {x <> y}).

Lemma counter_loop_get l c k :
  dict_get dec k (counter_loop dec l c)
  = match dict_get dec k c with
    | Some n => Some (n + count_occ dec l k)%nat
    | None => if (count_occ dec l k =? 0)%nat then None else Some (count_occ dec l k)
    end.
Proof.
  revert c. induction l as [|x r IH]; intros c; simpl.
  - destruct (dict_get dec k c); [f_equal; lia|reflexivity].
  - rewrite IH, dict_get_set. destruct (dec k x) as [->|Hne].
    + destruct (dec x x); [|congruence].
      destruct (dict_get dec x c); simpl; f_equal; lia.
    + destruct (dec x k); [congruence|reflexivity].
Qed.

Lemma counts_total_set k w (c : list (K * nat)) :
  (counts_total (dict_set dec k w c)
   + match dict_get dec k c with Some n => n | None => 0 end
   = counts_total c + w)%nat.
Proof.
  induction c as [|[k0 n0] r IH]; simpl; [lia|].
  destruct (dec k k0); simpl; lia.
Qed.

Lemma counter_loop_total l c :
  counts_total (counter_loop dec l c) = (counts_total c + length l)%nat.
Proof.
  revert c. induction l as [|x r IH]; intros c; simpl; [lia|].
  rewrite IH. pose proof (counts_total_set x
    match dict_get dec x c with Some n => S n | None => 1%nat end c) as H.
  destruct (dict_get dec x c); lia.
Qed.

Lemma counter_loop_NoDup l c :
  NoDup (map fst c) -> NoDup (map fst (counter_loop dec l c)).
Proof.
  revert c. induction l as [|x r IH]; intros c Hc; simpl; [exact Hc|].
  apply IH, dict_set_NoDup, Hc.
Qed.
End CounterFacts.

(** info.analyze_issues: each distinct status (id, name) pair and each
    distinct assignee label is counted once, with the number of issues that
    carry it; the counts of each kind add up to [total_issues]. An unassigned
    issue is counted under the label "Unassigned", together with the issues
    of any user whose display name is "Unassigned". *)
Theorem analyze_issues_counts resp :
  let issues := match resp_issues resp with Some l => l | None => [] end in
  let a := analyze_issues resp in
  (forall st, dict_get pair_dec st (status_counts a)
     = let n := count_occ pair_dec
                  (map (fun iss => (ri_status_id iss, ri_status_name iss)) issues) st in
       if (n =? 0)%nat then None else Some n)
  /\ (forall lbl, dict_get string_dec lbl (assignee_counts a)
     = let n := count_occ string_dec (map assignee_label issues) lbl in
       if (n =? 0)%nat then None else Some n)
  /\ NoDup (map fst (status_counts a)) /\ NoDup (map fst (assignee_counts a))
  /\ counts_total (status_counts a) = total_issues a
  /\ counts_total (assignee_counts a) = total_issues a
  /\ count_occ string_dec (map assignee_label issues) "Unassigned"
     = length (filter (fun iss => match ri_assignee iss with
                                  | None => true
                                  | Some u => String.eqb (displayName u) "Unassigned"
                                  end) issues).
Proof.
  cbv zeta. unfold analyze_issues, Counter. simpl.
  split; [intros st; rewrite counter_loop_get; reflexivity|].
  split; [intros lbl; rewrite counter_loop_get; reflexivity|].
  split; [apply counter_loop_NoDup; constructor|].
  split; [apply counter_loop_NoDup; constructor|].
  split; [rewrite counter_loop_total, length_map; reflexivity|].
  split; [rewrite counter_loop_total, length_map; reflexivity|].
  induction (match resp_issues resp with Some l => l | None => [] end) as [|iss r IH];
    [reflexivity|].
  cbn [map count_occ filter].
  destruct (string_dec (assignee_label iss) "Unassigned") as [Hl|Hl];
    unfold assignee_label in Hl; destruct (ri_assignee iss) as [u|].
  - rewrite Hl. simpl. rewrite IH. reflexivity.
  - simpl. rewrite IH. reflexivity.
  - replace (String.eqb (displayName u) "Unassigned") with false
      by (symmetry; apply String.eqb_neq; exact Hl).
    exact IH.
  - congruence.
Qed.

(** *** search.build_jql *)

Lemma append_empty_r s : (s ++ "")%string = s.
Proof. induction s as [|c r IH]; simpl; [reflexivity|rewrite IH; reflexivity]. Qed.

Lemma py_split_comma_nonnil s : py_split_comma s <> [].
Proof.
  destruct s as [|c r]; simpl; [discriminate|].
  destruct (Ascii.eqb c ","); [discriminate|]. destruct (py_split_comma r); discriminate.
Qed.

Lemma py_split_comma_prefix k s :
  (forall c, In c (list_ascii_of_string k) -> c <> ","%char) ->
  py_split_comma (k ++ s)%string
  = match py_split_comma s with
    | w :: ws => (k ++ w)%string :: ws
    | [] => [k]
    end.
Proof.
  induction k as [|c k IH]; intros Hk; simpl.
  - pose proof (py_split_comma_nonnil s). destruct (py_split_comma s); [congruence|reflexivity].
  - replace (Ascii.eqb c ",") with false
      by (symmetry; apply Ascii.eqb_neq; apply Hk; left; reflexivity).
    rewrite IH by (intros c' Hc'; apply Hk; right; exact Hc').
    pose proof (py_split_comma_nonnil s). destruct (py_split_comma s); [congruence|reflexivity].
Qed.

Lemma split_concat_round_trip keys :
  keys <> [] -> keys_comma_free keys ->
  py_split_comma (String.concat "," keys) = keys.
Proof.
  intros Hne Hk. destruct keys as [|k0 ks]; [contradiction|].
  clear Hne. revert k0 Hk. induction ks as [|k1 ks IH]; intros k0 Hk.
  - simpl. rewrite <- (append_empty_r k0) at 1.
    rewrite py_split_comma_prefix by (intros; apply (Hk k0); [left|]; auto).
    simpl. rewrite append_empty_r. reflexivity.
  - change (String.concat "," (k0 :: k1 :: ks))
      with (k0 ++ String "," (String.concat "," (k1 :: ks)))%string.
    rewrite py_split_comma_prefix by (intros; apply (Hk k0); [left|]; auto).
    replace (py_split_comma (String "," (String.concat "," (k1 :: ks))))
      with ("" :: py_split_comma (String.concat "," (k1 :: ks))) by reflexivity.
    rewrite IH by (intros k c Hin; apply Hk; right; exact Hin).
    simpl. rewrite append_empty_r. reflexivity.
Qed.

Lemma list_ascii_of_string_app s t :
  list_ascii_of_string (s ++ t) = (list_ascii_of_string s ++ list_ascii_of_string t)%list.
Proof. induction s as [|c r IH]; simpl; [reflexivity|rewrite IH; reflexivity]. Qed.

Lemma string_app_inv_tail s1 s2 t : (s1 ++ t)%string = (s2 ++ t)%string -> s1 = s2.
Proof.
  intros H. apply (f_equal list_ascii_of_string) in H.
  rewrite !list_ascii_of_string_app in H. apply app_inv_tail in H.
  rewrite <- (string_of_list_ascii_of_string s1), <- (string_of_list_ascii_of_string s2), H.
  reflexivity.
Qed.

Lemma string_app_inv_head s t1 t2 : (s ++ t1)%string = (s ++ t2)%string -> t1 = t2.
Proof.
  intros H. apply (f_equal list_ascii_of_string) in H.
  rewrite !list_ascii_of_string_app in H. apply app_inv_head in H.
  rewrite <- (string_of_list_ascii_of_string t1), <- (string_of_list_ascii_of_string t2), H.
  reflexivity.
Qed.

(** search.build_jql with non-empty lists of issue keys, none containing a
    comma: two calls give the same query exactly when the key lists are
    equal, whatever the dates and the project. The dates and the project are
    ignored, and distinct key lists (or the same keys in another order) give
    distinct queries. *)
Theorem build_jql_keys_injective k1 k2 s1 e1 p1 s2 e2 p2 :
  k1 <> [] -> k2 <> [] -> keys_comma_free k1 -> keys_comma_free k2 ->
  (build_jql (Some k1) s1 e1 p1 = build_jql (Some k2) s2 e2 p2 <-> k1 = k2).
Proof.
  intros Hn1 Hn2 Hc1 Hc2. destruct k1 as [|a1 r1]; [contradiction|].
  destruct k2 as [|a2 r2]; [contradiction|]. split; [|intros [= -> ->]; reflexivity].
  intros H.
  change (("key in (" ++ (String.concat "," (a1 :: r1) ++ ")"))%string
          = ("key in (" ++ (String.concat "," (a2 :: r2) ++ ")"))%string) in H.
  apply string_app_inv_head, string_app_inv_tail in H.
  rewrite <- (split_concat_round_trip (a1 :: r1)), <- (split_concat_round_trip (a2 :: r2))
    by (assumption || discriminate).
  rewrite H. reflexivity.
Qed.

Lemma build_jql_keys_injective_witness :
  build_jql (Some ["PROJ-1"; "PROJ-22"]) (Some "2023-01-01") None (Some "PROJ")
  = build_jql (Some ["PROJ-1"; "PROJ-22"]) None None None
  /\ build_jql (Some ["PROJ-1"; "PROJ-22"]) None None None
     <> build_jql (Some ["PROJ-22"; "PROJ-1"]) None None None.
Proof.
  assert (Hc : forall k, k = ["PROJ-1"; "PROJ-22"] \/ k = ["PROJ-22"; "PROJ-1"] ->
                 keys_comma_free k).
  { intros k Hk k' c Hin Hc. destruct Hk as [->| ->];
      destruct Hin as [<-|[<-|[]]]; simpl in Hc; repeat destruct Hc as [<-|Hc];
      try discriminate; destruct Hc. }
  split.
  - apply build_jql_keys_injective; [discriminate|discriminate|apply Hc; left; reflexivity..
                                    |reflexivity].
  - intros H. apply build_jql_keys_injective in H;
      [discriminate H|discriminate|discriminate|apply Hc; auto..].
Defined.

(** *** assignee_report totals *)

Section PairSum.
Context {K V : Type} (dec : forall x y : K, {x = y} + {x <> y}) (g : K -> V -> Z).

Lemma pair_sum_set k v (d : list (K * V)) :
  pair_sum g (dict_set dec k v d)
  = pair_sum g d - match dict_get dec k d with Some o => g k o | None => 0 end + g k v.
Proof.
  induction d as [|[k0 v0] r IH]; simpl; [lia|].
  destruct (dec k k0) as [->|]; simpl; [lia|]. rewrite IH. lia.
Qed.

Lemma pair_sum_snoc k v (d : list (K * V)) :
  pair_sum g (d ++ [(k, v)]) = pair_sum g d + g k v.
Proof. induction d as [|p r IH]; simpl; [lia|]. rewrite IH. lia. Qed.
End PairSum.

Lemma group_loop_total_estimate iss w R R' :
  NoDup (map fst w) ->
  (forall I, In I (map fst w) -> forall L s, ~ lead_entry R L I s) ->
  group_loop w R = Some R' ->
  pair_sum (fun _ m => total_timeestimate iss m) R'
  = pair_sum (fun _ m => total_timeestimate iss m) R
    + pair_sum (fun I a => match a with [] => 0 | _ :: _ => estimate_of iss I end) w.
Proof.
  revert R. induction w as [|[I a0] r IH]; intros R Hnd Hfresh.
  - intros [= <-]. simpl. lia.
  - simpl in Hnd. inversion Hnd as [|? ? HnI Hnd']; subst.
    assert (Hfr : forall I', In I' (map fst r) -> forall L s, ~ lead_entry R L I' s)
      by (intros I' HI'; apply Hfresh; right; exact HI').
    destruct a0 as [|[k v] sr].
    + simpl. intros H. rewrite (IH R Hnd' Hfr H). lia.
    + cbn [group_loop].
      destruct (dict_get opt_str_dec (max_from k v sr) ((k, v) :: sr)) as [ls|] eqn:Hg;
        [|discriminate].
      set (L := max_from k v sr) in *.
      set (R1 := setdefault opt_str_dec L [] R).
      destruct (setdefault_get opt_str_dec L [] R) as [m0 Hm0]. fold R1 in Hm0.
      rewrite Hm0.
      set (Ru := dict_set opt_str_dec L (dict_set string_dec I ls m0) R1).
      assert (HU := lead_update_spec R L I ls (Hfresh I (or_introl eq_refl))).
      cbv zeta in HU. fold R1 in HU. rewrite Hm0 in HU. fold Ru in HU.
      intros H. rewrite (IH Ru Hnd') by
        (exact H || (intros I' HI' L' s' He; apply HU in He as [He|(_ & -> & _)];
                     [exact (Hfr I' HI' L' s' He)|exact (HnI HI')])).
      assert (HS1 : pair_sum (fun _ m => total_timeestimate iss m) R1
                    = pair_sum (fun _ m => total_timeestimate iss m) R).
      { unfold R1, setdefault. destruct (dict_get opt_str_dec L R); [reflexivity|].
        rewrite pair_sum_snoc. simpl. lia. }
      assert (HI : dict_get string_dec I m0 = None).
      { destruct (dict_get string_dec I m0) as [x|] eqn:Ex; [|reflexivity].
        exfalso. apply (Hfresh I (or_introl eq_refl) L x).
        apply dict_get_In in Hm0, Ex. unfold R1 in Hm0.
        apply setdefault_In in Hm0 as [Hm0|[= ->]]; [exists m0; auto|destruct Ex]. }
      unfold Ru. rewrite (pair_sum_set opt_str_dec), HS1, Hm0.
      change (total_timeestimate iss (dict_set string_dec I ls m0))
        with (pair_sum (fun I _ => estimate_of iss I) (dict_set string_dec I ls m0)).
      rewrite (pair_sum_set string_dec), HI.
      change (pair_sum (fun I _ => estimate_of iss I) m0) with (total_timeestimate iss m0).
      simpl. lia.
Qed.

(** assignee_report: for a workload whose issue ids are distinct (as the keys
    of a dict are), every issue with a non-empty allocation contributes its
    time estimate (0 when the issue is unknown or has no estimate) to the
    total of exactly one lead, so the printed lead totals add up to the sum of
    the estimates of those issues; issues with an empty allocation count for
    nobody. *)
Theorem assignee_report_total_estimate w issue_map :
  NoDup (map fst w) ->
  exists totals, assignee_totals w issue_map = Some totals
    /\ fold_right (fun p acc => snd p + acc) 0 totals
       = pair_sum (fun I a => match a with [] => 0 | _ :: _ => estimate_of issue_map I end) w.
Proof.
  intros Hnd.
  destruct (group_loop_spec w [] Hnd) as (R & HR & _).
  { intros I _ L s (m & [] & _). }
  unfold assignee_totals, group_by_lead. rewrite HR.
  eexists. split; [reflexivity|].
  transitivity (pair_sum (fun _ m => total_timeestimate issue_map m) R).
  - clear HR. induction R as [|[L m] r IH]; simpl; [reflexivity|]. lia.
  - rewrite (group_loop_total_estimate issue_map w [] R Hnd); [simpl; lia| |exact HR].
    intros I _ L s (m & [] & _).
Qed.

Lemma assignee_report_total_estimate_witness :
  assignee_totals [("I1", [(A, 5)]); ("I2", [(B, 2); (A, 1)]); ("I3", [(A, 4)])] demo_issue_map
    = Some [(A, 3600); (B, 7200)]
  /\ exists totals,
    assignee_totals [("I1", [(A, 5)]); ("I2", [(B, 2); (A, 1)]); ("I3", [(A, 4)])]
      demo_issue_map = Some totals
    /\ fold_right (fun p acc => snd p + acc) 0 totals
       = pair_sum (fun I a => match a with [] => 0 | _ :: _ => estimate_of demo_issue_map I end)
           [("I1", [(A, 5)]); ("I2", [(B, 2); (A, 1)]); ("I3", [(A, 4)])].
Proof.
  split; [vm_compute; reflexivity|].
  apply assignee_report_total_estimate. simpl.
  constructor; [simpl; intros [H|[H|[]]]; discriminate|].
  constructor; [simpl; intros [H|[]]; discriminate|].
  constructor; [intros []|constructor].
Defined.

(** *** Shape of the workload *)

Lemma dict_set_nonnil {K V} (dec : forall x y : K, {x = y} + {x <> y}) k (v : V) d :
  dict_set dec k v d <> [].
Proof. destruct d as [|[k0 v0] r]; simpl; [discriminate|]. destruct (dec k k0); discriminate. Qed.

Lemma credit_wf per I who x : workload_wf per -> workload_wf (credit per I who x).
Proof.
  intros [Hnd Ha]. unfold credit. split; [apply dict_set_NoDup; exact Hnd|].
  intros J a HJ. apply dict_set_In in HJ as [[= -> ->]|HJ]; [|exact (Ha J a HJ)].
  split; [apply dict_set_nonnil|]. apply dict_set_NoDup.
  destruct (dict_get string_dec I per) as [a0|] eqn:E; [|constructor].
  exact (proj2 (Ha I a0 (dict_get_In _ _ _ _ E))).
Qed.

Lemma sweep_wf I rest idx start end_ per per' idx' :
  workload_wf per -> sweep I rest idx start end_ per = Some (per', idx') -> workload_wf per'.
Proof.
  revert idx start per. induction rest as [|a r IH]; intros idx start per Hwf; simpl.
  - intros [= <- _]. exact Hwf.
  - destruct (strptime (date a)) as [dt|]; [|discriminate].
    destruct (dt <? start); [apply IH; exact Hwf|].
    destruct (dt <? end_); [apply IH; apply credit_wf; exact Hwf|].
    intros [= <- _]. apply credit_wf. exact Hwf.
Qed.

Lemma windows_wf I f idxs idx per per' :
  workload_wf per -> windows I f idxs idx per = Some per' -> workload_wf per'.
Proof.
  revert idx per. induction idxs as [|i r IH]; intros idx per Hwf; simpl.
  - intros [= <-]. exact Hwf.
  - destruct (py_index (statuses f) (Z.of_nat i - 1)) as [s|]; [|discriminate].
    destruct (strptime (date s)) as [x|]; [|discriminate].
    destruct (py_index (statuses f) (Z.of_nat i)) as [e|]; [|discriminate].
    destruct (strptime (date e)) as [y|]; [|discriminate].
    destruct (sweep I (skipn idx (assignees f)) idx x y per) as [[p j]|] eqn:Hs; [|discriminate].
    simpl. apply IH. exact (sweep_wf _ _ _ _ _ _ _ _ Hwf Hs).
Qed.

(** calculate_workload always yields a dict of dicts: whatever the changelog
    (even one listing an issue id twice), each issue id appears once in the
    result, and each issue that appears has been credited at least once, to
    distinct assignees. So group_by_lead assigns every issue of the result to
    a lead. *)
Theorem workload_well_formed cl target r :
  calculate_workload cl target = Some r ->
  NoDup (map fst r) /\ forall I a, In (I, a) r -> a <> [] /\ NoDup (map fst a).
Proof.
  assert (Hgen : forall cl' per, workload_wf per ->
            calculate_loop cl' target per = Some r -> workload_wf r).
  { induction cl' as [|[I f] rest IH]; intros per Hwf; simpl.
    - intros [= <-]. exact Hwf.
    - unfold issue_workload.
      destruct (windows I f (target_status_idx (statuses f) target) 0 per) as [p|] eqn:Hw;
        [|discriminate].
      apply IH. exact (windows_wf _ _ _ _ _ _ Hwf Hw). }
  intros Hr. apply (Hgen cl []); [|exact Hr]. split; [constructor|intros ? ? []].
Qed.

Lemma workload_well_formed_witness :
  NoDup (map fst [("I", [(A, 43200000000)])])
  /\ forall I a, In (I, a) [("I", [(A, 43200000000)])] -> a <> [] /\ NoDup (map fst a).
Proof.
  apply (workload_well_formed [("I", scenario_A); ("I", scenario_A)] TARGET).
  vm_compute. reflexivity.
Defined.

(** *** find_at_time returns an entry of the timeline *)

Lemma find_loop_result items q inclusive prev p :
  find_loop items q inclusive prev = Some p -> p = prev \/ exists t, p = Some t /\ In t items.
Proof.
  revert prev. induction items as [|it r IH]; intros prev; simpl.
  - intros [= <-]. auto.
  - destruct (datetime_compare (date it) q); [|discriminate].
    destruct (_ || _).
    + intros H. destruct (IH _ H) as [->|(t & -> & Ht)]; right; eauto.
    + intros [= <-]. auto.
Qed.

(** find_at_time never builds a transition: when it returns, the result is
    an entry of the requested timeline (a copy of it, in Python). It fails
    (KeyError, IndexError, or ValueError from strptime) rather than return
    anything else, in particular on an empty timeline. *)
Theorem find_at_time_member cl query issue_id key inclusive t :
  find_at_time cl query issue_id key inclusive = Some t ->
  exists f items, dict_get string_dec issue_id cl = Some f
    /\ timeline f key = Some items /\ In t items.
Proof.
  unfold find_at_time.
  destruct (dict_get string_dec issue_id cl) as [f|] eqn:Hf; [|discriminate].
  destruct (timeline f key) as [items|] eqn:Hk; [|discriminate].
  unfold find_in.
  destruct (find_loop items query inclusive None) as [p|] eqn:Hl; [|discriminate].
  intros H. exists f, items. split; [reflexivity|]. split; [exact Hk|].
  destruct p as [p|].
  - injection H as <-. destruct (find_loop_result _ _ _ _ _ Hl) as [[=]|(t' & [= <-] & Ht)].
    exact Ht.
  - destruct items as [|i0 r]; [discriminate|]. injection H as <-. left. reflexivity.
Qed.

Lemma find_at_time_member_witness :
  exists f items, dict_get string_dec "I" [("I", tie_log)] = Some f
    /\ timeline f "assignees" = Some items /\ In (tr t0 None A) items.
Proof.
  apply (find_at_time_member [("I", tie_log)] t0 "I" "assignees" true).
  vm_compute. reflexivity.
Defined.
